(** * marc: a shallow embedding of the todo store ([src/src/lib.rs]) and of
    the argument parser ([src/src/cli.rs]). *)

From Stdlib Require Import String Ascii.
From Stdlib Require Import List Arith NArith Bool Lia.
Import ListNotations.
Open Scope list_scope.

(** ** Rust strings

    A Rust [str] is modelled as the sequence of its Unicode scalar values
    (code points, as [N]); every string operation used by the source
    ([trim], [lines], [splitn], [starts_with], [parse]) is defined on chars. *)

Abbreviation char := N (only parsing).
Abbreviation str := (list N) (only parsing).

(** String literals of the source, written with ASCII Rocq strings. *)
Definition lit (x : String.string) : str :=
  map (fun a => N.of_nat (Ascii.nat_of_ascii a)) (String.list_ascii_of_string x).
Arguments lit x%_string.

Definition char_eqb (a b : char) : bool := N.eqb a b.

Fixpoint str_eqb (a b : str) : bool :=
  match a, b with
  | [], [] => true
  | x :: a', y :: b' => char_eqb x y && str_eqb a' b'
  | _, _ => false
  end.

(** [str::starts_with(prefix)] *)
Fixpoint starts_with (x prefix : str) : bool :=
  match prefix, x with
  | [], _ => true
  | p :: prefix', c :: x' => char_eqb p c && starts_with x' prefix'
  | _ :: _, [] => false
  end.

(** [char::is_whitespace]: the Unicode White_Space property. *)
Definition is_whitespace (c : char) : bool :=
  ((9 <=? c) && (c <=? 13))%N || (c =? 32)%N || (c =? 133)%N || (c =? 160)%N
  || (c =? 5760)%N || ((8192 <=? c) && (c <=? 8202))%N
  || (c =? 8232)%N || (c =? 8233)%N || (c =? 8239)%N || (c =? 8287)%N
  || (c =? 12288)%N.

Fixpoint trim_start (x : str) : str :=
  match x with
  | [] => []
  | c :: x' => if is_whitespace c then trim_start x' else x
  end.

Definition trim_end (x : str) : str := rev (trim_start (rev x)).

(** [str::trim] *)
Definition trim (x : str) : str := trim_start (trim_end x).

(** [str::is_empty] *)
Definition is_empty (x : str) : bool :=
  match x with [] => true | _ => false end.

(** ** Results *)

Inductive result (A E : Type) : Type :=
| Ok (a : A)
| Err (e : E).
Arguments Ok {A E} a.
Arguments Err {A E} e.

(** ** Data model ([TodoItem], [TodoList], [MarkDoneError]) *)

Record TodoItem := mkItem {
  hash : str;
  desc : str;
  is_completed : bool;
  tag : option str
}.

Record TodoList := mkList { items : list TodoItem }.

Inductive MarkDoneError :=
| NotFound (msg : str)
| AlreadyCompleted (msg : str)
| MultipleMatches (prefix : str) (matches : list (str * str)).

(** [TodoList::new] *)
Definition new_list : TodoList := mkList [].

(** [self.items.iter().enumerate()] *)
Fixpoint enumerate_from {A} (i : nat) (l : list A) : list (nat * A) :=
  match l with
  | [] => []
  | x :: l' => (i, x) :: enumerate_from (S i) l'
  end.

Definition enumerate {A} (l : list A) := enumerate_from 0 l.

(** The index vector [matching_items] shared by [rm_item] and [mark_done]:
    [.filter(|(_, item)| item.hash.starts_with(hash)).map(|(i, _)| i)]. *)
Definition matching_items (its : list TodoItem) (h : str) : list nat :=
  map fst (filter (fun '(_, it) => starts_with (hash it) h) (enumerate its)).

(** [Vec::remove(index)] (only called with an in-range index). *)
Fixpoint vec_remove {A} (l : list A) (i : nat) : list A :=
  match l, i with
  | [], _ => []
  | _ :: l', 0 => l'
  | x :: l', S i' => x :: vec_remove l' i'
  end.

(** [TodoList::rm_item]: the returned item, and the list after the call. *)
Definition rm_item (self : TodoList) (h : str) : option TodoItem * TodoList :=
  match matching_items (items self) h with
  | [index] =>
      match nth_error (items self) index with
      | Some it => (Some it, mkList (vec_remove (items self) index))
      | None => (None, self)
      end
  | _ => (None, self)
  end.

(** [self.items[index].is_completed = true] *)
Definition set_completed (it : TodoItem) : TodoItem :=
  mkItem (hash it) (desc it) true (tag it).

Fixpoint vec_update {A} (l : list A) (i : nat) (f : A -> A) : list A :=
  match l, i with
  | [], _ => []
  | x :: l', 0 => f x :: l'
  | x :: l', S i' => x :: vec_update l' i' f
  end.

Definition notfound_msg (h : str) : str :=
  lit "warning: no todo found with hash' " ++ h ++ lit "'".

(** [TodoList::mark_done]: the result and the list after the call. *)
Definition mark_done (self : TodoList) (h : str)
  : result nat MarkDoneError * TodoList :=
  match matching_items (items self) h with
  | [] => (Err (NotFound (notfound_msg h)), self)
  | [index] =>
      match nth_error (items self) index with
      | Some it =>
          if is_completed it
          then (Err (AlreadyCompleted (lit "warning: todo is already completed")), self)
          else (Ok 1, mkList (vec_update (items self) index set_completed))
      | None => (Err (NotFound (notfound_msg h)), self) (* unreachable: indices are in range *)
      end
  | matching =>
      (Err (MultipleMatches h
              (map (fun i => match nth_error (items self) i with
                             | Some it => (hash it, desc it)
                             | None => ([], [])
                             end) matching)), self)
  end.

(** ** Integer formatting and parsing *)

(** [core::fmt] for unsigned integers in base [b]: the digits of [n], most
    significant first, with no padding (["0"] for zero); [fuel] bounds the
    number of digits. *)
Fixpoint fmt_radix (b : N) (digit : N -> char) (fuel : nat) (n : N) : str :=
  match fuel with
  | O => []
  | S f =>
      if (n <? b)%N then [digit n]
      else fmt_radix b digit f (n / b)%N ++ [digit (n mod b)%N]
  end.

Definition dec_digit (d : N) : char := (48 + d)%N.
Definition hex_digit (d : N) : char := if (d <? 10)%N then (48 + d)%N else (87 + d)%N.

(** [format!("{}", n)] for a [usize] (at most 20 decimal digits). *)
Definition fmt_usize (n : N) : str := fmt_radix 10 dec_digit 20 n.

(** [format!("{:x}", n)] for a [u64] (at most 16 hexadecimal digits). *)
Definition fmt_hex_u64 (n : N) : str := fmt_radix 16 hex_digit 16 n.

Definition is_ascii_digit (c : char) : bool := ((48 <=? c) && (c <=? 57))%N.

(** The digit loop of [usize::from_str_radix(_, 10)], with its overflow check
    ([checked_mul] then [checked_add] against [usize::MAX]). *)
Fixpoint parse_digits (acc : N) (x : str) : option N :=
  match x with
  | [] => Some acc
  | c :: x' =>
      if is_ascii_digit c then
        let v := (acc * 10 + (c - 48))%N in
        if (v <? 2 ^ 64)%N then parse_digits v x' else None
      else None
  end.

(** [str::parse::<usize>]: an optional leading ['+'] followed by one or more
    decimal digits; [None] is the [ParseIntError]. *)
Definition parse_usize (x : str) : option N :=
  match x with
  | [] => None
  | c :: x' =>
      if char_eqb c 43%N then
        match x' with [] => None | _ => parse_digits 0 x' end
      else parse_digits 0 x
  end.

(** ** [str::lines] and [str::splitn] *)

(** A line held reversed, without the ['\r'] that ended it. *)
Definition drop_cr (cur : str) : str :=
  match cur with r :: cur' => if char_eqb r 13%N then cur' else cur | [] => [] end.

(** [str::lines]: the pieces of [split_inclusive('\n')], each with its final
    ['\n'] removed and then a ['\r'] before it; a last piece without ['\n']
    is kept as is. [cur] holds the current line reversed. *)
Fixpoint lines_from (cur : str) (x : str) : list str :=
  match x with
  | [] => match cur with [] => [] | _ => [rev cur] end
  | c :: x' =>
      if char_eqb c 10%N then rev (drop_cr cur) :: lines_from [] x'
      else lines_from (c :: cur) x'
  end.

Definition lines (x : str) : list str := lines_from [] x.

(** The text before and after the first [sep]. *)
Fixpoint split_once (sep : char) (x : str) : option (str * str) :=
  match x with
  | [] => None
  | c :: x' =>
      if char_eqb c sep then Some ([], x')
      else match split_once sep x' with
           | Some (a, b) => Some (c :: a, b)
           | None => None
           end
  end.

(** [str::splitn(n, sep)]: at most [n] pieces, the last one being the rest. *)
Fixpoint splitn (n : nat) (sep : char) (x : str) : list str :=
  match n with
  | O => []
  | S O => [x]
  | S n' =>
      match split_once sep x with
      | Some (a, rest) => a :: splitn n' sep rest
      | None => [x]
      end
  end.

(** ** The edit workflow ([edit], [parse_edit_commands]) *)

(** [writeln!(temp_file, "pick {} {}", i + 1, item.desc)] *)
Definition pick_line (entry : nat * TodoItem) : str :=
  let '(i, it) := entry in
  lit "pick " ++ fmt_usize (N.of_nat (S i)) ++ lit " " ++ desc it ++ [10%N].

(** The comment block [edit] writes after the [pick] lines. *)
Definition edit_comment_block : str :=
  [10%N] ++ lit "# Interactive todo editing" ++ [10%N]
  ++ lit "# Commands:" ++ [10%N]
  ++ lit "#   pick, p <todo> = keep the todo" ++ [10%N]
  ++ lit "#   drop, d <todo> = remove the todo" ++ [10%N]
  ++ lit "# Lines starting with # are ignored" ++ [10%N].

(** The scratch buffer written by [edit]: one [pick <i+1> <desc>] line per
    item, then the comment block. *)
Definition edit_buffer (its : list TodoItem) : str :=
  concat (map pick_line (enumerate its)) ++ edit_comment_block.

(** One line of the edited buffer: [None] when the loop [continue]s,
    otherwise the command word and the 0-based index. *)
Definition edit_line (len : nat) (line : str) : option (str * nat) :=
  let line := trim line in
  if is_empty line || starts_with line (lit "#") then None
  else
    match splitn 3 32%N line with
    | command :: index_str :: _ =>
        match parse_usize index_str with
        | Some i =>
            if (0 <? i)%N && (i <=? N.of_nat len)%N
            then Some (command, N.to_nat i - 1)
            else None
        | None => None
        end
    | _ => None
    end.

Fixpoint parse_edit_loop (original_items : list TodoItem) (ls : list str)
    (new_items : list TodoItem) : list TodoItem :=
  match ls with
  | [] => new_items
  | line :: ls' =>
      match edit_line (length original_items) line with
      | None => parse_edit_loop original_items ls' new_items
      | Some (command, index) =>
          let pushed :=
            match nth_error original_items index with
            | Some it => new_items ++ [it]
            | None => new_items
            end in
          if str_eqb command (lit "pick") || str_eqb command (lit "p") then
            parse_edit_loop original_items ls' pushed
          else if str_eqb command (lit "drop") || str_eqb command (lit "d") then
            parse_edit_loop original_items ls' new_items
          else parse_edit_loop original_items ls' pushed
      end
  end.

(** [parse_edit_commands] *)
Definition parse_edit_commands (content : str) (original_items : list TodoItem)
  : result (list TodoItem) str :=
  Ok (parse_edit_loop original_items (lines content) []).

(** [edit], from the list it loads to the list it saves; [edited] is the
    scratch buffer as the editor left it (a failing editor is an [Err]
    before this point and saves nothing). *)
Definition edit (self : TodoList) (edited : str) : result TodoList str :=
  match items self with
  | [] => Err (lit "No todos to edit! Add some todos first with 'marc add <todo>'")
  | its =>
      match parse_edit_commands edited its with
      | Ok new_items => Ok (mkList new_items)
      | Err e => Err e
      end
  end.

(** ** [TodoList::add_item] and the [add] command *)

(** [TodoList::add_item]; [id] is the value [Self::generate_short_hash]
    returned for this call (its digest mixes in the current time, so it is
    an input here; see [generate_short_hash] below). *)
Definition add_item (id : str) (self : TodoList) (d : str) (t : option str) : TodoList :=
  mkList (items self ++
          [mkItem id d false (Some (match t with Some v => v | None => lit "default" end))]).

(** [Iterator::position] *)
Fixpoint position {A} (p : A -> bool) (l : list A) : option nat :=
  match l with
  | [] => None
  | x :: l' => if p x then Some 0 else option_map S (position p l')
  end.

(** [get_flag]: the argument following the first alias occurrence. *)
Definition get_flag (aliases : list str) (args : list str) : option str :=
  match position (fun entry => existsb (str_eqb entry) aliases) args with
  | Some pos => nth_error args (S pos)
  | None => None
  end.

(** The [for todo in todos_to_add] loop of [add]; [gen k todo tag] is the
    hash generated for the [k]-th todo of the call. *)
Fixpoint add_loop (gen : nat -> str -> option str -> str) (k : nat)
    (tag : option str) (todos : list str) (l : TodoList) : result TodoList str :=
  match todos with
  | [] => Ok l
  | todo :: todos' =>
      if is_empty (trim todo) then Err (lit "Todo items cannot be empty")
      else add_loop gen (S k) tag todos' (add_item (gen k todo tag) l todo tag)
  end.

(** [add(args)] from the loaded list to the list it saves ([args] is
    [args[2..]] of [run]). *)
Definition add (gen : nat -> str -> option str -> str) (args : list str) (todo_list : TodoList)
  : result TodoList str :=
  let tag_start :=
    match get_flag [lit "-t"; lit "--tag"] args with
    | Some tag_value =>
        if negb (is_empty tag_value) then Ok (Some tag_value, 2)
        else Err (lit "--tag option requires a non-empty value." ++ 10%N :: lit "Usage: marc add --tag <tagname> <todo>")
    | None => Err (lit "--tag option requires a value." ++ 10%N :: lit "Usage: marc add --tag <tagname> <todo>")
    end in
  match tag_start with
  | Err e => Err e
  | Ok (tag, todos_start_index) =>
      if match tag with Some _ => true | None => false end && match nth_error args todos_start_index with None => true | _ => false end
      then Err (lit "did not specify the todo content")
      else
        let todos_to_add := skipn todos_start_index args in
        match todos_to_add with
        | [] => Err (lit "No todos provided after tag option." ++ 10%N :: lit "Usage: marc add --tag <tagname> <todo>")
        | _ => add_loop gen 0 tag todos_to_add todo_list
        end
  end.

(** ** Listing ([TodoList::list_items], [log]) *)

(** One printed line of [list_items]. *)
Inductive OutLine :=
| NoEntries
| Total (n : nat)
| Entry (status : nat) (h : str) (t : option str) (d : str).

Definition list_items (self : TodoList) : list OutLine :=
  match items self with
  | [] => [NoEntries]
  | its =>
      Total (length its)
        :: map (fun it => Entry (if is_completed it then 1 else 0) (hash it) (tag it) (desc it)) its
  end.

(** The ["log"] arm of [run]: [log()] is called without the remaining
    arguments; it prints and saves nothing ([None] is the saved list). *)
Definition run_log (args : list str) (todo_list : TodoList) : list OutLine * option TodoList :=
  (list_items todo_list, None).

(** ** The [done] command *)

(** The [for prefix in hash] loop: list, [completed_count], [errors]. *)
Fixpoint done_loop (hs : list str) (l : TodoList) (completed_count : nat) (errors : list str)
  : TodoList * nat * list str :=
  match hs with
  | [] => (l, completed_count, errors)
  | prefix :: hs' =>
      if is_empty (trim prefix) then
        done_loop hs' l completed_count (errors ++ [lit "Empty hash prefix provided"])
      else
        match mark_done l prefix with
        | (Ok _, l') => done_loop hs' l' (S completed_count) errors
        | (Err (NotFound msg), l') => done_loop hs' l' completed_count (errors ++ [msg])
        | (Err (AlreadyCompleted msg), l') => done_loop hs' l' completed_count (errors ++ [msg])
        | (Err (MultipleMatches _ _), l') => done_loop hs' l' completed_count errors
        end
  end.

(** [done(hash)] from the loaded list: its result and the list it saves
    ([None] when [save_to_file] is not called). *)
Definition done (hs : list str) (todo_list : TodoList) : result unit str * option TodoList :=
  match items todo_list with
  | [] => (Err (lit "No todos available to mark as done"), None)
  | _ =>
      let '(l, completed_count, errors) := done_loop hs todo_list 0 [] in
      let saved := if Nat.ltb 0 completed_count then Some l else None in
      match errors with
      | [] => (Ok tt, saved)
      | _ => if Nat.eqb completed_count 0
             then (Err (lit "No todos were marked as done"), saved)
             else (Ok tt, saved)
      end
  end.

(** ** Loading ([TodoList::load_from_file]) *)

(** What the file system shows at the data path. *)
Inductive FileState :=
| NoHome                  (* [Config::get_path] fails: neither HOME nor USERPROFILE *)
| Missing                 (* [!path.exists()] *)
| Unreadable              (* [fs::read_to_string] fails *)
| Contents (data : str).

(** [from_str] is [serde_json::from_str::<TodoList>]: [None] when [data] is
    not a JSON document of that shape. *)
Definition load_from_file (from_str : str -> option TodoList) (f : FileState)
  : result TodoList str :=
  match f with
  | NoHome => Err (lit "home directory not set")
  | Missing => Ok new_list
  | Unreadable => Err (lit "error: failed to read todo file")
  | Contents data =>
      if is_empty (trim data) then Ok new_list
      else match from_str data with
           | Some l => Ok l
           | None => Err (lit "error: failed to parse todo file")
           end
  end.

(** ** [TodoList::generate_short_hash] *)

(** [&s[..n]]: [None] is the panic when [n] exceeds the length (the text is
    ASCII here, so characters and bytes coincide). *)
Definition slice_to (n : nat) (x : str) : option str :=
  if Nat.leb n (length x) then Some (firstn n x) else None.

(** [digest desc tag nanos] is [hasher.finish()] of the [DefaultHasher]
    fed with [desc], the tag when present, and the current time in
    nanoseconds; [None] is a panic. *)
Definition generate_short_hash (digest : str -> option str -> N -> N)
    (d : str) (t : option str) (nanos : N) : option str :=
  slice_to 7 (fmt_hex_u64 (digest d t nanos)).

(** ** The store as a state machine (for the hash-uniqueness invariant) *)

(** One store operation; [OpAdd] carries the hash its [generate_short_hash]
    call returned, [OpEdit] the buffer the editor left. *)
Inductive StoreOp :=
| OpAdd (d : str) (t : option str) (id : str)
| OpRm (prefix : str)
| OpDone (prefix : str)
| OpEdit (edited : str).

Definition apply_op (l : TodoList) (op : StoreOp) : TodoList :=
  match op with
  | OpAdd d t id => add_item id l d t
  | OpRm p => snd (rm_item l p)
  | OpDone p => snd (mark_done l p)
  | OpEdit c => match edit l c with Ok l' => l' | Err _ => l end
  end.

(** The list after a sequence of operations, from the empty list. *)
Definition run_ops (ops : list StoreOp) : TodoList := fold_left apply_op ops new_list.

Definition hashes (l : TodoList) : list str := map hash (items l).

(** The 0-based indices an edited buffer keeps, in the order of its lines. *)
Definition edit_kept (len : nat) (line : str) : list nat :=
  match edit_line len line with
  | Some (command, index) =>
      if str_eqb command (lit "drop") || str_eqb command (lit "d") then [] else [index]
  | None => []
  end.

Definition picked_indices (len : nat) (content : str) : list nat :=
  flat_map (edit_kept len) (lines content).

(** The items of [original] at the given indices, in order. *)
Definition nth_items (original : list TodoItem) (idx : list nat) : list TodoItem :=
  flat_map (fun i => match nth_error original i with Some it => [it] | None => [] end) idx.

(** The side conditions of the invariant: an added hash is fresh, and an
    edited buffer keeps each index at most once. *)
Definition op_ok (l : TodoList) (op : StoreOp) : Prop :=
  match op with
  | OpAdd _ _ id => ~ In id (hashes l)
  | OpEdit c => NoDup (picked_indices (length (items l)) c)
  | _ => True
  end.

Fixpoint ops_ok (l : TodoList) (ops : list StoreOp) : Prop :=
  match ops with
  | [] => True
  | op :: ops' => op_ok l op /\ ops_ok (apply_op l op) ops'
  end.

(** ** The [rm] command *)

(** The [for prefix in hash] loop of [rm]: blank prefixes are skipped, the
    others go to [rm_item], whose returned item is dropped. *)
Fixpoint rm_loop (hs : list str) (todo_list : TodoList) : TodoList :=
  match hs with
  | [] => todo_list
  | prefix :: hs' =>
      if is_empty (trim prefix) then rm_loop hs' todo_list
      else rm_loop hs' (snd (rm_item todo_list prefix))
  end.

(** [rm(hash)]: its result and the list handed to [save_to_file] ([None]
    when it is not called). [load] is what [TodoList::load_from_file]
    returns; the emptiness check of [hash] comes before it. *)
Definition rm (hs : list str) (load : result TodoList str) : result unit str * option TodoList :=
  match hs with
  | [] => (Err (lit "rm command required an hash"), None)
  | _ =>
      match load with
      | Err e => (Err e, None)
      | Ok todo_list =>
          match items todo_list with
          | [] => (Err (lit "No todos to remove"), None)
          | _ => (Ok tt, Some (rm_loop hs todo_list))
          end
      end
  end.

(** ** The entry point [run] *)

(** How the editor step of [edit] ends: the buffer the editor left, or an
    error (creating or writing the temporary file, the editor's exit
    status, reading the file back). *)
Inductive EditorRun :=
| EditorOk (buffer : str)
| EditorFailed (msg : str).

(** [run(args)]: [None] is the panic of [args[1]] on an empty vector;
    otherwise the result and the list handed to [save_to_file] ([None] when
    it is not called). [load] is what [TodoList::load_from_file] returns,
    [gen] the hashes [add] generates and [editor] the editor step of [edit];
    [help], [log] and the version line only print. *)
Definition run (gen : nat -> str -> option str -> str) (load : result TodoList str)
    (editor : EditorRun) (args : list str) : option (result unit str * option TodoList) :=
  match args with
  | [] => None
  | [_] => Some (Ok tt, None)
  | _ :: cmd :: rest =>
      Some (
      if str_eqb cmd (lit "add") then
        match rest with
        | [] => (Err (lit "'add' command requires at least one entry"), None)
        | _ =>
            match load with
            | Err e => (Err e, None)
            | Ok l => match add gen rest l with
                      | Ok l' => (Ok tt, Some l')
                      | Err e => (Err e, None)
                      end
            end
        end
      else if str_eqb cmd (lit "log") then
        match load with
        | Err e => (Err e, None)
        | Ok l => (Ok tt, snd (run_log rest l))
        end
      else if str_eqb cmd (lit "edit") then
        match load with
        | Err e => (Err e, None)
        | Ok l =>
            match items l with
            | [] => (Err (lit "No todos to edit! Add some todos first with 'marc add <todo>'"), None)
            | _ =>
                match editor with
                | EditorFailed e => (Err e, None)
                | EditorOk buffer =>
                    match edit l buffer with
                    | Ok l' => (Ok tt, Some l')
                    | Err e => (Err e, None)
                    end
                end
            end
        end
      else if str_eqb cmd (lit "rm") then rm rest load
      else if str_eqb cmd (lit "done") then
        match rest with
        | [] => (Err (lit "'done' command requires at least one hash to complete an entry"), None)
        | _ =>
            match load with
            | Err e => (Err e, None)
            | Ok l => done rest l
            end
        end
      else if str_eqb cmd (lit "--version") || str_eqb cmd (lit "-v") then (Ok tt, None)
      else if str_eqb cmd (lit "--help") || str_eqb cmd (lit "-h") then (Ok tt, None)
      else (Err (lit "'" ++ cmd ++ lit "' is not a marc command. See 'marc --help'."), None))
  end.

(** ** Vocabulary of the statements below *)

(** [l] is [l'] with some items left out, the others kept in order. *)
Inductive subseq {A} : list A -> list A -> Prop :=
| subseq_nil : subseq [] []
| subseq_keep (x : A) (l l' : list A) : subseq l l' -> subseq (x :: l) (x :: l')
| subseq_skip (x : A) (l l' : list A) : subseq l l' -> subseq l (x :: l').

(** A lowercase hexadecimal digit. *)
Definition is_hex_lower (c : char) : bool :=
  is_ascii_digit c || ((97 <=? c) && (c <=? 102))%N.

(** [b] is [a], except that it may have become completed. *)
Definition same_but_completion (a b : TodoItem) : Prop :=
  hash b = hash a /\ desc b = desc a /\ tag b = tag a
  /\ (is_completed a = true -> is_completed b = true).

(** The number of completed items. *)
Definition count_completed (its : list TodoItem) : nat := length (filter is_completed its).

(** A text that does not start with whitespace. *)
Definition no_leading_ws (x : str) : Prop :=
  match x with [] => True | c :: _ => is_whitespace c = false end.

(** ** The argument parser ([src/src/cli.rs]) *)

Module Cli.

Inductive Subcommand := Add | Log | Remove | Edit | Help | Done | Version.

Inductive ArgKind := Flag | Option.

Definition ArgKind_eqb (a b : ArgKind) : bool :=
  match a, b with Flag, Flag | Option, Option => true | _, _ => false end.

Record ArgSpec := mkSpec { name : str; short : char; long : str; kind : ArgKind }.

(** The entry the [define_args!] macro emits after every declared argument. *)
Definition help_spec : ArgSpec := mkSpec (lit "help") 104%N (lit "--help") Flag.

(** [get_arg_specs_for], as [define_args!] expands it on the table of the
    source: each declared spec is followed by [help_spec]. *)
Definition get_arg_specs_for (cmd : Subcommand) : list ArgSpec :=
  match cmd with
  | Add => [mkSpec (lit "tag") 116%N (lit "tag") Option; help_spec]
  | Log => [mkSpec (lit "tag") 116%N (lit "tag") Option; help_spec;
            mkSpec (lit "done") 100%N (lit "done") Flag; help_spec;
            mkSpec (lit "undone") 117%N (lit "undone") Flag; help_spec]
  | Remove => [mkSpec (lit "done") 100%N (lit "done") Flag; help_spec]
  | Edit | Help | Done | Version => []
  end.

Inductive Arg :=
| ArgOption (n : str) (value : str)
| ArgFlag (n : str)
| ArgValue (v : str).

Inductive ParseError := UnknownArg (a : str) | Missing (a : str).

Section ParseArgs.
Variable tokens : list str.
Variables flags options : list ArgSpec.

(** The [for a in arg.chars()] loop over a short cluster; [i] is the
    index of the token being read, advanced by each option value taken. *)
Fixpoint parse_cluster (cs : str) (i : nat) (args : list Arg)
  : result (nat * list Arg) ParseError :=
  match cs with
  | [] => Ok (i, args)
  | a :: cs' =>
      match find (fun f => char_eqb (short f) a) flags with
      | Some sp => parse_cluster cs' i (args ++ [ArgFlag (name sp)])
      | None =>
          match find (fun o => char_eqb (short o) a) options with
          | Some sp =>
              match nth_error tokens (S i) with
              | Some next => parse_cluster cs' (S i) (args ++ [ArgOption (name sp) next])
              | None => Err (Missing [a])
              end
          | None => Err (UnknownArg [a])
          end
      end
  end.

(** The [while i < tokens.len()] loop; each turn advances [i], so
    [S (length tokens)] turns of [fuel] suffice. *)
Fixpoint parse_loop (fuel : nat) (i : nat) (args : list Arg) : result (list Arg) ParseError :=
  match fuel with
  | O => Ok args
  | S fuel' =>
      match nth_error tokens i with
      | None => Ok args
      | Some token =>
          if starts_with token (lit "--") then
            let arg_name := skipn 2 token in
            match find (fun f => str_eqb (long f) arg_name) flags with
            | Some sp => parse_loop fuel' (S i) (args ++ [ArgFlag (name sp)])
            | None =>
                match find (fun o => str_eqb (long o) arg_name) options with
                | Some sp =>
                    match nth_error tokens (S i) with
                    | Some next => parse_loop fuel' (S (S i)) (args ++ [ArgOption (name sp) next])
                    | None => Err (Missing arg_name)
                    end
                | None => Err (UnknownArg arg_name)
                end
            end
          else if starts_with token (lit "-") then
            match parse_cluster (skipn 1 token) i args with
            | Ok (i', args') => parse_loop fuel' (S i') args'
            | Err e => Err e
            end
          else parse_loop fuel' (S i) (args ++ [ArgValue token])
      end
  end.

End ParseArgs.

(** [CommandLine::parse_args] *)
Definition parse_args (tokens : list str) (arg_spec : list ArgSpec) : result (list Arg) ParseError :=
  let flags := filter (fun f => ArgKind_eqb (kind f) Flag) arg_spec in
  let options := filter (fun o => ArgKind_eqb (kind o) Option) arg_spec in
  parse_loop tokens flags options (S (length tokens)) 0 [].

(** [Arg::get_option]: the value of the first option of that name. *)
Fixpoint get_option (args : list Arg) (option_name : str) : option str :=
  match args with
  | [] => None
  | ArgOption n value :: args' =>
      if str_eqb n option_name then Some value else get_option args' option_name
  | _ :: args' => get_option args' option_name
  end.

(** [Arg::get_flag] *)
Definition get_flag (args : list Arg) (flag_name : str) : bool :=
  existsb (fun entry => match entry with ArgFlag s => str_eqb s flag_name | _ => false end) args.

(** [read_stdin]: [None] when stdin is a terminal, otherwise the lines of
    what it holds ([BufRead::lines] splits as [str::lines]), trimmed, the
    empty ones left out. *)
Definition read_stdin (is_terminal : bool) (input : str) : option (list str) :=
  if is_terminal then None
  else Some (filter (fun line => negb (is_empty line)) (map trim (lines input))).

(** [u8::to_ascii_lowercase] and [u8::to_ascii_uppercase] on a code point. *)
Definition ascii_lower (c : char) : char := if ((65 <=? c) && (c <=? 90))%N then (c + 32)%N else c.
Definition ascii_upper (c : char) : char := if ((97 <=? c) && (c <=? 122))%N then (c - 32)%N else c.

(** [Subcommand::from_str]; [to_lowercase] is [str::to_lowercase] (Unicode
    case mapping, taken as an input: on ASCII text it is [map ascii_lower]). *)
Definition from_str (to_lowercase : str -> str) (s : str) : result Subcommand str :=
  let l := to_lowercase s in
  if str_eqb l (lit "add") then Ok Add
  else if str_eqb l (lit "rm") then Ok Remove
  else if str_eqb l (lit "log") then Ok Log
  else if str_eqb l (lit "edit") then Ok Edit
  else if str_eqb l (lit "done") then Ok Done
  else if str_eqb l (lit "--help") || str_eqb l (lit "help") || str_eqb l (lit "-h") then Ok Help
  else if str_eqb l (lit "--version") || str_eqb l (lit "v") then Ok Version
  else Err (lit "unknown subcommand " ++ [34%N] ++ s ++ [34%N]).

Record CommandLine := mkCommandLine { subcommand : Subcommand; args : list Arg }.

(** The [{:#?}] rendering of a [Subcommand]. *)
Definition subcommand_debug (c : Subcommand) : str :=
  match c with
  | Add => lit "Add" | Log => lit "Log" | Remove => lit "Remove" | Edit => lit "Edit"
  | Help => lit "Help" | Done => lit "Done" | Version => lit "Version"
  end.

(** [CommandLine::new]; [stdin] is what [read_stdin] returned (its
    [println!] only prints). *)
Definition new (to_lowercase : str -> str) (stdin : option (list str)) (tokens : list str)
  : result CommandLine str :=
  if Nat.eqb (length tokens) 1 then Err (lit "Invalid use")
  else
    match nth_error tokens 1 with
    | None => Err (lit "command not found")
    | Some token =>
        match from_str to_lowercase token with
        | Err _ => Err (lit "unknown subcommand " ++ [34%N] ++ token ++ [34%N])
        | Ok subcommand =>
            let rem_args := skipn 2 tokens in
            let rem_args := match stdin with
                            | Some stdin_args => rem_args ++ stdin_args
                            | None => rem_args
                            end in
            match parse_args rem_args (get_arg_specs_for subcommand) with
            | Ok args => Ok (mkCommandLine subcommand args)
            | Err (Missing arg) =>
                Err (lit "switch " ++ [34%N] ++ arg ++ [34%N] ++ lit " requires a value")
            | Err (UnknownArg arg) =>
                Err (lit "unknown argument " ++ [34%N] ++ arg ++ [34%N] ++ lit " for "
                     ++ subcommand_debug subcommand)
            end
        end
    end.

End Cli.

(** * Proofs *)

(** ** Hash-prefix matching *)

Lemma enumerate_from_shift (h : str) (l : list TodoItem) (k : nat) :
  map fst (filter (fun '(_, it) => starts_with (hash it) h) (enumerate_from (S k) l))
  = map S (map fst (filter (fun '(_, it) => starts_with (hash it) h) (enumerate_from k l))).
Proof.
  revert k; induction l as [|x l IH]; intro k; [reflexivity|].
  simpl. destruct (starts_with (hash x) h); simpl; rewrite IH; reflexivity.
Qed.

Lemma matching_items_cons (x : TodoItem) (l : list TodoItem) (h : str) :
  matching_items (x :: l) h
  = if starts_with (hash x) h then 0 :: map S (matching_items l h)
    else map S (matching_items l h).
Proof.
  unfold matching_items, enumerate. simpl.
  destruct (starts_with (hash x) h); simpl; rewrite enumerate_from_shift; reflexivity.
Qed.

Lemma matching_items_nth (l : list TodoItem) (h : str) :
  map (nth_error l) (matching_items l h)
  = map Some (filter (fun it => starts_with (hash it) h) l).
Proof.
  induction l as [|x l IH]; [reflexivity|].
  rewrite matching_items_cons. simpl.
  destruct (starts_with (hash x) h); simpl; rewrite map_map; simpl;
    [f_equal|]; exact IH.
Qed.

Lemma matching_items_length (l : list TodoItem) (h : str) :
  length (matching_items l h) = length (filter (fun it => starts_with (hash it) h) l).
Proof.
  rewrite <- (length_map (nth_error l)), matching_items_nth, length_map. reflexivity.
Qed.

Lemma filter_nil_keeps (l : list TodoItem) (h : str) (f : TodoItem -> TodoItem) :
  filter (fun it => starts_with (hash it) h) l = [] ->
  filter (fun x => negb (starts_with (hash x) h)) l = l
  /\ map (fun x => if starts_with (hash x) h then f x else x) l = l.
Proof.
  induction l as [|x l IH]; [auto|]. simpl.
  destruct (starts_with (hash x) h); [discriminate|]. simpl.
  intro E. destruct (IH E) as [E1 E2]. rewrite E1, E2. auto.
Qed.

Lemma matching_items_single (l : list TodoItem) (h : str) (it : TodoItem) :
  filter (fun x => starts_with (hash x) h) l = [it] ->
  exists i, matching_items l h = [i] /\ nth_error l i = Some it
    /\ vec_remove l i = filter (fun x => negb (starts_with (hash x) h)) l
    /\ vec_update l i set_completed
       = map (fun x => if starts_with (hash x) h then set_completed x else x) l.
Proof.
  induction l as [|x l IH]; [discriminate|].
  rewrite matching_items_cons. simpl.
  destruct (starts_with (hash x) h) eqn:Hx.
  - intro E. injection E as <- E.
    assert (M : matching_items l h = []).
    { apply length_zero_iff_nil. rewrite matching_items_length, E. reflexivity. }
    destruct (filter_nil_keeps l h set_completed E) as [E1 E2].
    exists 0. rewrite M. simpl. rewrite E1, E2. auto.
  - intro E. destruct (IH E) as (i & M & N & R & U).
    exists (S i). rewrite M. simpl. rewrite R, U. auto.
Qed.

(** ** C3: [mark_done] *)

(** C3. For every list and prefix: no matching hash gives [NotFound]; one
    completed match gives [AlreadyCompleted]; one open match is marked
    completed and the call succeeds; several matches give
    [MultipleMatches] with the prefix and the (hash, description) of every
    match. Failing calls leave the list unchanged. *)
Theorem mark_done_by_prefix (l : TodoList) (h : str) :
  match filter (fun it => starts_with (hash it) h) (items l) with
  | [] => mark_done l h = (Err (NotFound (notfound_msg h)), l)
  | [it] =>
      if is_completed it
      then mark_done l h
           = (Err (AlreadyCompleted (lit "warning: todo is already completed")), l)
      else mark_done l h
           = (Ok 1, mkList (map (fun x => if starts_with (hash x) h then set_completed x else x)
                                (items l)))
  | ms => mark_done l h = (Err (MultipleMatches h (map (fun it => (hash it, desc it)) ms)), l)
  end.
Proof.
  pose proof (matching_items_length (items l) h) as Len.
  pose proof (matching_items_nth (items l) h) as Nth.
  unfold mark_done.
  destruct (filter (fun it => starts_with (hash it) h) (items l)) as [|it [|it2 ms]] eqn:F.
  - apply length_zero_iff_nil in Len. rewrite Len. reflexivity.
  - destruct (matching_items_single (items l) h it F) as (i & M & N & _ & U).
    rewrite M, N, U. destruct (is_completed it); reflexivity.
  - destruct (matching_items (items l) h) as [|i [|j rest]];
      simpl in Len; try discriminate.
    f_equal. f_equal. f_equal.
    rewrite <- (map_map (nth_error (items l))
                  (fun o => match o with Some it => (hash it, desc it) | None => ([], []) end)).
    rewrite Nth, map_map. reflexivity.
Qed.

(** ** C4: [rm_item] *)

(** C4. For every list and prefix: when exactly one hash starts with the
    prefix, [rm_item] returns that item and removes it (the others keep
    their order); with zero or several matches it returns nothing and the
    list is unchanged. *)
Theorem rm_item_by_prefix (l : TodoList) (h : str) :
  match filter (fun it => starts_with (hash it) h) (items l) with
  | [it] => rm_item l h
            = (Some it, mkList (filter (fun x => negb (starts_with (hash x) h)) (items l)))
  | _ => rm_item l h = (None, l)
  end.
Proof.
  pose proof (matching_items_length (items l) h) as Len.
  unfold rm_item.
  destruct (filter (fun it => starts_with (hash it) h) (items l)) as [|it [|it2 ms]] eqn:F.
  - apply length_zero_iff_nil in Len. rewrite Len. reflexivity.
  - destruct (matching_items_single (items l) h it F) as (i & M & N & R & _).
    rewrite M, N, R. reflexivity.
  - destruct (matching_items (items l) h) as [|i [|j rest]];
      simpl in Len; try discriminate; reflexivity.
Qed.

(** ** C1: [add] without a tag *)

(** C1 (code defect). [add] with a single description and no tag never
    reaches [add_item]: [get_flag] finds no [-t]/[--tag], and its [None]
    arm returns an error, so the ["default"] tag of [add_item] is never
    used from [add] without a tag. *)
Theorem add_without_tag_fails (gen : nat -> str -> option str -> str)
    (d : str) (l : TodoList) :
  add gen [d] l = Err (lit "--tag option requires a value." ++ 10%N :: lit "Usage: marc add --tag <tagname> <todo>").
Proof.
  unfold add, get_flag. simpl.
  destruct (str_eqb d (lit "-t") || (str_eqb d (lit "--tag") || false)); reflexivity.
Qed.

(** ** C5: [log] *)

Definition item_a : TodoItem := mkItem (lit "aaa1111") (lit "buy milk") false (Some (lit "a")).
Definition item_b : TodoItem := mkItem (lit "bbb2222") (lit "walk") false (Some (lit "b")).

(** C5, as stated, fails: asked for tag [a] and for completed items only,
    [log] still prints the open item tagged [b]. *)
Lemma log_filters_counterexample :
  In (Entry 0 (hash item_b) (Some (lit "b")) (desc item_b))
     (fst (run_log [lit "--tag"; lit "a"] (mkList [item_a; item_b])))
  /\ In (Entry 0 (hash item_b) (Some (lit "b")) (desc item_b))
        (fst (run_log [lit "--done"] (mkList [item_a; item_b]))).
Proof. split; simpl; auto. Qed.

(** C5 (amended). Whatever arguments follow [log], it prints the same lines:
    ["No entries"] for an empty list, otherwise a total line with the number
    of items followed by exactly one line per item, in list order, with its
    status, hash, tag and description; it saves nothing. *)
Theorem log_prints_every_item (args : list str) (l : TodoList) :
  fst (run_log args l) = fst (run_log [] l)
  /\ snd (run_log args l) = None
  /\ (items l = [] -> fst (run_log args l) = [NoEntries])
  /\ (items l <> [] ->
        fst (run_log args l)
        = Total (length (items l))
            :: map (fun it => Entry (if is_completed it then 1 else 0) (hash it) (tag it) (desc it))
                   (items l))
  /\ (forall it, In it (items l) ->
        In (Entry (if is_completed it then 1 else 0) (hash it) (tag it) (desc it))
           (fst (run_log args l))).
Proof.
  unfold run_log, list_items. cbn [fst snd].
  split; [reflexivity|]. split; [reflexivity|]. split; [|split].
  - intros ->. reflexivity.
  - intro Hne. destruct (items l); [contradiction | reflexivity].
  - intros it Hin. destruct (items l) as [|x xs]; [destruct Hin|].
    right. apply in_map_iff. exists it. split; [reflexivity | exact Hin].
Qed.

(** ** C6: [done] *)

Definition item_c1 : TodoItem := mkItem (lit "abc1111") (lit "buy milk") false (Some (lit "default")).
Definition item_c2 : TodoItem := mkItem (lit "abc2222") (lit "walk") false (Some (lit "default")).

(** C6 (code defect). [done ["abc"]] on two open items whose hashes both
    start with [abc]: the only target is ambiguous, nothing is marked, and
    yet the command returns [Ok] (the [MultipleMatches] arm pushes no error,
    and the failure return sits under [!errors.is_empty()]). *)
Theorem done_all_ambiguous_succeeds :
  done [lit "abc"] (mkList [item_c1; item_c2]) = (Ok tt, None).
Proof. vm_compute. reflexivity. Qed.

(** ** C7: the help flag *)

(** C7 (code defect). [--help] is an unknown argument for every subcommand
    (the generated spec's long alias is ["--help"], compared with the token
    after its ["--"] is stripped), and [-h] is unknown for the subcommands
    that declare no argument (the macro emits the help spec only after each
    declared one). *)
Theorem help_flag_rejected :
  (forall cmd, Cli.parse_args [lit "--help"] (Cli.get_arg_specs_for cmd)
               = Err (Cli.UnknownArg (lit "help")))
  /\ (forall cmd, In cmd [Cli.Edit; Cli.Help; Cli.Done; Cli.Version] ->
        Cli.parse_args [lit "-h"] (Cli.get_arg_specs_for cmd) = Err (Cli.UnknownArg (lit "h"))).
Proof.
  split.
  - intro cmd; destruct cmd; vm_compute; reflexivity.
  - intros cmd Hin. simpl in Hin.
    destruct Hin as [<-|[<-|[<-|[<-|[]]]]]; vm_compute; reflexivity.
Qed.

(** ** Trimming *)

Lemma existsb_rev {A} (p : A -> bool) (x : list A) : existsb p (rev x) = existsb p x.
Proof.
  induction x as [|c x IH]; [reflexivity|].
  simpl. rewrite existsb_app, IH. simpl. rewrite orb_false_r, orb_comm. reflexivity.
Qed.

Lemma forallb_rev {A} (p : A -> bool) (x : list A) : forallb p (rev x) = forallb p x.
Proof.
  induction x as [|c x IH]; [reflexivity|].
  simpl. rewrite forallb_app, IH. simpl. rewrite andb_true_r, andb_comm. reflexivity.
Qed.

Lemma trim_start_all_ws (x : str) : forallb is_whitespace x = true -> trim_start x = [].
Proof.
  induction x as [|c x IH]; [reflexivity|].
  simpl. intro H. apply andb_prop in H as [Hc Hx]. rewrite Hc. exact (IH Hx).
Qed.

Lemma trim_start_keeps_nonws (x : str) :
  existsb (fun c => negb (is_whitespace c)) x = true ->
  existsb (fun c => negb (is_whitespace c)) (trim_start x) = true.
Proof.
  induction x as [|c x IH]; [discriminate|].
  simpl. destruct (is_whitespace c) eqn:Hc; simpl; intro H.
  - exact (IH H).
  - rewrite Hc. reflexivity.
Qed.

Lemma trim_all_ws (x : str) : forallb is_whitespace x = true -> trim x = [].
Proof.
  intro H. unfold trim, trim_end.
  rewrite (trim_start_all_ws (rev x)); [reflexivity|]. rewrite forallb_rev. exact H.
Qed.

Lemma trim_nonws (x : str) :
  existsb (fun c => negb (is_whitespace c)) x = true -> is_empty (trim x) = false.
Proof.
  intro H. unfold trim, trim_end.
  assert (E : existsb (fun c => negb (is_whitespace c))
                (trim_start (rev (trim_start (rev x)))) = true).
  { apply trim_start_keeps_nonws. rewrite existsb_rev.
    apply trim_start_keeps_nonws. rewrite existsb_rev. exact H. }
  destruct (trim_start (rev (trim_start (rev x)))); [discriminate | reflexivity].
Qed.

(** ** C8: [load_from_file] *)

(** C8. A missing file and a whitespace-only file load as the empty list;
    a file with some other character that [serde_json] does not parse is
    an error. *)
Theorem load_from_file_cases (from_str : str -> option TodoList) :
  load_from_file from_str Missing = Ok new_list
  /\ (forall data, forallb is_whitespace data = true ->
        load_from_file from_str (Contents data) = Ok new_list)
  /\ (forall data, existsb (fun c => negb (is_whitespace c)) data = true ->
        from_str data = None ->
        exists msg, load_from_file from_str (Contents data) = Err msg).
Proof.
  split; [reflexivity|]. split.
  - intros data H. simpl. rewrite (trim_all_ws data H). reflexivity.
  - intros data H Hparse. simpl. rewrite (trim_nonws data H), Hparse. eexists. reflexivity.
Qed.

(** C8: a witness. *)
Lemma load_from_file_cases_witness :
  (exists msg, load_from_file (fun _ => None) (Contents (lit "{oops")) = Err msg)
  /\ load_from_file (fun _ => None) (Contents (lit "  ")) = Ok new_list.
Proof.
  destruct (load_from_file_cases (fun _ => None)) as [_ [Hws Hbad]]. split.
  - apply Hbad; reflexivity.
  - apply Hws. reflexivity.
Defined.

(** ** C10: [generate_short_hash] *)

(** Fewer than [k] base-[b] digits for a value below [b^k]. *)
Lemma fmt_radix_length (b : N) (digit : N -> char) (fuel k : nat) (n : N) :
  (2 <= b)%N -> (n < b ^ N.of_nat (S k))%N ->
  length (fmt_radix b digit fuel n) <= S k.
Proof.
  intros Hb. revert n k.
  induction fuel as [|f IH]; intros n k Hn; simpl; [lia|].
  destruct (N.ltb_spec n b) as [Hlt|Hge]; simpl; [lia|].
  destruct k as [|k].
  - change (N.of_nat 1) with 1%N in Hn. rewrite N.pow_1_r in Hn. lia.
  - rewrite length_app. simpl.
    assert (Hq : (n / b < b ^ N.of_nat (S k))%N).
    { apply N.Div0.div_lt_upper_bound.
      rewrite <- N.pow_succ_r'. rewrite <- Nat2N.inj_succ. exact Hn. }
    specialize (IH (n / b)%N k Hq). lia.
Qed.

(** C10 (code defect). Whenever the 64-bit digest is below [16^6], its
    unpadded hexadecimal rendering has at most 6 digits and the slice
    [[..7]] panics: [generate_short_hash] returns no string. *)
Theorem generate_short_hash_panics (digest : str -> option str -> N -> N)
    (d : str) (t : option str) (nanos : N) :
  (digest d t nanos < 16 ^ 6)%N -> generate_short_hash digest d t nanos = None.
Proof.
  intro H. unfold generate_short_hash, slice_to, fmt_hex_u64.
  pose proof (fmt_radix_length 16 hex_digit 16 5 (digest d t nanos) ltac:(lia) H) as L.
  destruct (Nat.leb_spec 7 (length (fmt_radix 16 hex_digit 16 (digest d t nanos)))); [lia|].
  reflexivity.
Qed.

(** C10: a witness, a digest of [0xabcdef]. *)
Lemma generate_short_hash_panics_witness :
  (0xabcdef < 16 ^ 6)%N
  /\ generate_short_hash (fun _ _ _ => 0xabcdef%N) (lit "buy milk") None 0 = None.
Proof.
  split; [vm_compute; reflexivity|].
  apply generate_short_hash_panics. vm_compute. reflexivity.
Defined.

(** ** The edit loop *)

Lemma char_eqb_true (a b : char) : char_eqb a b = true -> a = b.
Proof. apply N.eqb_eq. Qed.

Lemma str_eqb_true (a b : str) : str_eqb a b = true -> a = b.
Proof.
  revert b; induction a as [|x a IH]; intros [|y b]; simpl; try discriminate; auto.
  intro H. apply andb_prop in H as [H1 H2].
  rewrite (char_eqb_true _ _ H1), (IH _ H2). reflexivity.
Qed.

Lemma edit_line_range (len : nat) (line command : str) (index : nat) :
  edit_line len line = Some (command, index) -> index < len.
Proof.
  unfold edit_line.
  destruct (is_empty (trim line) || starts_with (trim line) (lit "#")); [discriminate|].
  destruct (splitn 3 32%N (trim line)) as [|c [|s rest]]; try discriminate.
  destruct (parse_usize s) as [i|]; [|discriminate].
  destruct (N.ltb_spec 0 i); simpl; [|discriminate].
  destruct (N.leb_spec i (N.of_nat len)); simpl; [|discriminate].
  intro E. injection E as _ <-. lia.
Qed.

Lemma picked_indices_range (len : nat) (content : str) (i : nat) :
  In i (picked_indices len content) -> i < len.
Proof.
  unfold picked_indices. intro H. apply in_flat_map in H as [line [_ H]].
  unfold edit_kept in H.
  destruct (edit_line len line) as [[command index]|] eqn:E; [|destruct H].
  destruct (str_eqb command (lit "drop") || str_eqb command (lit "d")); [destruct H|].
  destruct H as [<-|[]]. exact (edit_line_range _ _ _ _ E).
Qed.

(** The loop of [parse_edit_commands] appends the items at the kept
    indices, line by line. *)
Lemma parse_edit_loop_kept (original : list TodoItem) (ls : list str) (acc : list TodoItem) :
  parse_edit_loop original ls acc
  = acc ++ nth_items original (flat_map (edit_kept (length original)) ls).
Proof.
  revert acc; induction ls as [|line ls IH]; intro acc; simpl.
  - rewrite app_nil_r. reflexivity.
  - unfold edit_kept at 1.
    destruct (edit_line (length original) line) as [[command index]|]; [|apply IH].
    destruct (str_eqb command (lit "pick") || str_eqb command (lit "p")) eqn:P.
    + apply orb_true_iff in P as [P|P]; apply str_eqb_true in P; subst command;
        simpl; rewrite IH; unfold nth_items; simpl;
        destruct (nth_error original index); simpl;
        rewrite ?app_nil_r, <- ?app_assoc; reflexivity.
    + destruct (str_eqb command (lit "drop") || str_eqb command (lit "d")).
      * apply IH.
      * rewrite IH. unfold nth_items. simpl.
        destruct (nth_error original index); simpl;
        rewrite ?app_nil_r, <- ?app_assoc; reflexivity.
Qed.

Lemma edit_result (l : TodoList) (c : str) :
  items l <> [] ->
  edit l c = Ok (mkList (nth_items (items l) (picked_indices (length (items l)) c))).
Proof.
  intro Hne. unfold edit, parse_edit_commands.
  destruct (items l) as [|x xs]; [contradiction|].
  rewrite parse_edit_loop_kept. reflexivity.
Qed.

(** ** C2: hash uniqueness *)

Lemma nth_items_in (original : list TodoItem) (idx : list nat) (it : TodoItem) :
  In it (nth_items original idx) -> exists j, In j idx /\ nth_error original j = Some it.
Proof.
  unfold nth_items. intro H. apply in_flat_map in H as [j [Hj H]].
  destruct (nth_error original j) eqn:E; [|destruct H].
  destruct H as [<-|[]]. eauto.
Qed.

Lemma nth_items_nodup (original : list TodoItem) (idx : list nat) :
  NoDup idx -> (forall i, In i idx -> i < length original) ->
  NoDup (map hash original) -> NoDup (map hash (nth_items original idx)).
Proof.
  intros Hidx Hrange Horig.
  induction Hidx as [|i idx Hnot Hidx IH]; [constructor|].
  assert (Hi : i < length original) by (apply Hrange; left; reflexivity).
  destruct (nth_error original i) as [it|] eqn:E;
    [|apply nth_error_None in E; lia].
  change (NoDup (map hash ((match nth_error original i with Some it => [it] | None => [] end)
                           ++ nth_items original idx))).
  rewrite E. simpl. constructor.
  - intro Hin. apply in_map_iff in Hin as [it' [Hh Hin]].
    destruct (nth_items_in _ _ _ Hin) as [j [Hj Ej]].
    assert (Hji : j = i).
    { apply (proj1 (NoDup_nth_error (map hash original)) Horig).
      - rewrite length_map. apply Hrange. right. exact Hj.
      - rewrite !nth_error_map, Ej, E. simpl. rewrite Hh. reflexivity. }
    subst j. contradiction.
  - apply IH. intros k Hk. apply Hrange. right. exact Hk.
Qed.

Lemma vec_remove_incl {A} (l : list A) (i : nat) (y : A) :
  In y (vec_remove l i) -> In y l.
Proof.
  revert i; induction l as [|x l IH]; intros [|i]; simpl; auto.
  intros [H|H]; [left; exact H | right; exact (IH i H)].
Qed.

Lemma vec_remove_nodup {A} (l : list A) (i : nat) : NoDup l -> NoDup (vec_remove l i).
Proof.
  revert i; induction l as [|x l IH]; intros [|i] H; simpl; try constructor;
    inversion H as [|? ? Hx Hl]; subst; auto.
  intro Hin. apply Hx. exact (vec_remove_incl _ _ _ Hin).
Qed.

Lemma map_vec_remove {A B} (f : A -> B) (l : list A) (i : nat) :
  map f (vec_remove l i) = vec_remove (map f l) i.
Proof.
  revert i; induction l as [|x l IH]; intros [|i]; simpl; auto. rewrite IH. reflexivity.
Qed.

Lemma hashes_vec_update (l : list TodoItem) (i : nat) :
  map hash (vec_update l i set_completed) = map hash l.
Proof.
  revert i; induction l as [|x l IH]; intros [|i]; simpl; auto. rewrite IH. reflexivity.
Qed.

Lemma nodup_snoc {A} (l : list A) (x : A) : NoDup l -> ~ In x l -> NoDup (l ++ [x]).
Proof.
  induction l as [|y l IH]; simpl; intros H Hx.
  - constructor; [auto | constructor].
  - inversion H as [|? ? Hy Hl]; subst. constructor.
    + rewrite in_app_iff. intros [Hin|[<-|[]]]; [contradiction|]. apply Hx. left. reflexivity.
    + apply IH; auto.
Qed.

Lemma apply_op_nodup (l : TodoList) (op : StoreOp) :
  NoDup (hashes l) -> op_ok l op -> NoDup (hashes (apply_op l op)).
Proof.
  unfold hashes. intros H Hok. destruct op as [d t id|p|p|c]; simpl in Hok |- *.
  - rewrite map_app. simpl. apply nodup_snoc; assumption.
  - unfold rm_item. destruct (matching_items (items l) p) as [|i [|j rest]]; simpl; auto.
    destruct (nth_error (items l) i); simpl; auto.
    rewrite map_vec_remove. apply vec_remove_nodup. exact H.
  - unfold mark_done. destruct (matching_items (items l) p) as [|i [|j rest]]; simpl; auto.
    destruct (nth_error (items l) i) as [it|]; simpl; auto.
    destruct (is_completed it); simpl; auto. rewrite hashes_vec_update. exact H.
  - destruct (items l) as [|x xs] eqn:E.
    + unfold edit. rewrite E. simpl. rewrite E. constructor.
    + rewrite edit_result by (rewrite E; discriminate). simpl. rewrite E.
      apply nth_items_nodup; [exact Hok | | exact H].
      intros i Hi. exact (picked_indices_range _ _ _ Hi).
Qed.

Lemma fold_apply_op_nodup (ops : list StoreOp) (l : TodoList) :
  NoDup (hashes l) -> ops_ok l ops -> NoDup (hashes (fold_left apply_op ops l)).
Proof.
  revert l; induction ops as [|op ops IH]; intros l H Hok; simpl; auto.
  destruct Hok as [Hop Hops]. apply IH; [apply apply_op_nodup|]; assumption.
Qed.

(** C2, as stated, fails: an edited buffer that picks the single item twice
    leaves two items with the same hash. *)
Lemma hashes_unique_counterexample :
  ~ NoDup (hashes (run_ops [OpAdd (lit "buy milk") None (lit "abc1234");
                            OpEdit (lit "pick 1" ++ [10%N] ++ lit "pick 1")])).
Proof.
  assert (E : hashes (run_ops [OpAdd (lit "buy milk") None (lit "abc1234");
                               OpEdit (lit "pick 1" ++ [10%N] ++ lit "pick 1")])
              = [lit "abc1234"; lit "abc1234"]) by (vm_compute; reflexivity).
  rewrite E. intro H. inversion H as [|? ? Hx _]. apply Hx. left. reflexivity.
Qed.

(** C2 (amended). From the empty list, through additions whose generated
    hash is not already present, removals, completions, and edits whose
    buffer keeps each index at most once, the hashes stay pairwise
    distinct. *)
Theorem hashes_unique_when_fresh (ops : list StoreOp) :
  ops_ok new_list ops -> NoDup (hashes (run_ops ops)).
Proof.
  intro Hok. apply fold_apply_op_nodup; [constructor | exact Hok].
Qed.

(** C2: a witness: two additions, a completion, a reordering edit, a removal. *)
Lemma hashes_unique_when_fresh_witness :
  NoDup (hashes (run_ops [OpAdd (lit "buy milk") None (lit "abc1234");
                          OpAdd (lit "walk") (Some (lit "home")) (lit "def5678");
                          OpDone (lit "abc");
                          OpEdit (lit "pick 2" ++ [10%N] ++ lit "p 1");
                          OpRm (lit "d")])).
Proof.
  apply hashes_unique_when_fresh. vm_compute.
  split; [intro H; exact H|]. split; [intros [H|[]]; discriminate H|].
  split; [exact I|]. split; [repeat constructor; simpl; intuition discriminate|].
  repeat split.
Defined.

(** ** C9: the edit round trip *)

(** *** Decimal digits *)

Lemma parse_digits_app (v : N) (x y : str) :
  parse_digits v (x ++ y)
  = match parse_digits v x with Some w => parse_digits w y | None => None end.
Proof.
  revert v; induction x as [|c x IH]; intro v; simpl; [reflexivity|].
  destruct (is_ascii_digit c); [|reflexivity].
  match goal with |- context [if ?b then _ else _] => destruct b end;
    [apply IH | reflexivity].
Qed.

Lemma dec_digit_is_digit (d : N) : (d < 10)%N -> is_ascii_digit (dec_digit d) = true.
Proof.
  intro H. unfold is_ascii_digit, dec_digit.
  apply andb_true_iff. split; apply N.leb_le; lia.
Qed.

Lemma fmt_dec_digits (fuel : nat) (n : N) :
  Forall (fun c => is_ascii_digit c = true) (fmt_radix 10 dec_digit fuel n).
Proof.
  revert n; induction fuel as [|f IH]; intro n; simpl; [constructor|].
  destruct (N.ltb_spec n 10).
  - constructor; [apply dec_digit_is_digit; assumption | constructor].
  - apply Forall_app. split; [apply IH|].
    constructor; [apply dec_digit_is_digit; apply N.mod_lt; lia | constructor].
Qed.

Lemma parse_digits_single (v d : N) :
  (d < 10)%N -> (v * 10 + d < 2 ^ 64)%N -> parse_digits v [dec_digit d] = Some (v * 10 + d)%N.
Proof.
  intros Hd Hv. cbn [parse_digits].
  rewrite dec_digit_is_digit by exact Hd.
  replace (v * 10 + (dec_digit d - 48))%N with (v * 10 + d)%N by (unfold dec_digit; lia).
  rewrite (proj2 (N.ltb_lt _ _) Hv). reflexivity.
Qed.

Lemma parse_fmt_dec (fuel : nat) (n : N) :
  (n < 10 ^ N.of_nat fuel)%N -> (n < 2 ^ 64)%N ->
  parse_digits 0 (fmt_radix 10 dec_digit fuel n) = Some n.
Proof.
  revert n; induction fuel as [|f IH]; intros n Hf H64; simpl.
  - change (N.of_nat 0) with 0%N in Hf. rewrite N.pow_0_r in Hf.
    f_equal. lia.
  - destruct (N.ltb_spec n 10).
    + rewrite parse_digits_single by lia. try (f_equal; lia).
    + rewrite parse_digits_app.
      assert (Hq : (n / 10 < 10 ^ N.of_nat f)%N).
      { apply N.Div0.div_lt_upper_bound. rewrite <- N.pow_succ_r'.
        rewrite <- Nat2N.inj_succ. exact Hf. }
      assert (Hq64 : (n / 10 < 2 ^ 64)%N).
      { apply (N.le_lt_trans _ n); [apply N.Div0.div_le_upper_bound; lia | exact H64]. }
      rewrite (IH _ Hq Hq64).
      pose proof (N.div_mod n 10 ltac:(lia)) as Hdm.
      pose proof (N.mod_lt n 10 ltac:(lia)).
      rewrite parse_digits_single by lia. try (f_equal; lia).
Qed.

Lemma fmt_radix_cons (b : N) (digit : N -> char) (fuel : nat) (n : N) :
  exists c r, fmt_radix b digit (S fuel) n = c :: r.
Proof.
  cbn [fmt_radix]. destruct (n <? b)%N; [eauto|].
  destruct (fmt_radix b digit fuel (n / b)) as [|c r]; simpl; eauto.
Qed.

Lemma fmt_usize_cons (n : N) : exists c r, fmt_usize n = c :: r.
Proof. exact (fmt_radix_cons 10 dec_digit 19 n). Qed.

Lemma parse_usize_fmt (n : N) : (n < 2 ^ 64)%N -> parse_usize (fmt_usize n) = Some n.
Proof.
  intro H.
  assert (Hd : parse_digits 0 (fmt_usize n) = Some n).
  { apply parse_fmt_dec; [|exact H].
    apply (N.lt_trans _ (2 ^ 64)); [exact H | vm_compute; reflexivity]. }
  destruct (fmt_usize_cons n) as (c & r & E).
  pose proof (fmt_dec_digits 20 n) as Hdig. fold (fmt_usize n) in Hdig.
  rewrite E in Hdig, Hd |- *. inversion Hdig as [|? ? Hc _]; subst.
  unfold parse_usize.
  assert (Hc43 : char_eqb c 43%N = false).
  { unfold is_ascii_digit in Hc. apply andb_prop in Hc as [H1 H2].
    apply N.leb_le in H1. apply N.eqb_neq. lia. }
  rewrite Hc43. exact Hd.
Qed.

Lemma digit_not_special (c : char) :
  is_ascii_digit c = true ->
  is_whitespace c = false /\ char_eqb c 32%N = false /\ char_eqb c 10%N = false.
Proof.
  unfold is_ascii_digit. intro H. apply andb_prop in H as [H1 H2].
  apply N.leb_le in H1, H2. unfold is_whitespace, char_eqb.
  repeat match goal with
         | |- context [(?a =? ?b)%N] => destruct (N.eqb_spec a b); [lia|]
         | |- context [(?a <=? ?b)%N] => destruct (N.leb_spec a b)
         end; simpl; auto; lia.
Qed.

(** *** Lines, trimming and splitting of a [pick] line *)

Lemma lines_from_app (cur pre rest : str) :
  ~ In 10%N pre ->
  lines_from cur (pre ++ 10%N :: rest) = rev (drop_cr (rev pre ++ cur)) :: lines_from [] rest.
Proof.
  revert cur; induction pre as [|c pre IH]; intros cur H; [reflexivity|].
  simpl. assert (Hc : char_eqb c 10%N = false).
  { apply N.eqb_neq. intro E. apply H. left. exact E. }
  rewrite Hc, IH by (intro Hin; apply H; right; exact Hin).
  rewrite <- app_assoc. reflexivity.
Qed.

Lemma drop_cr_app (a b : str) : a <> [] -> drop_cr (a ++ b) = drop_cr a ++ b.
Proof.
  destruct a as [|r a]; [contradiction|]. intros _. simpl.
  destruct (char_eqb r 13%N); reflexivity.
Qed.

Lemma drop_cr_space (d : str) : exists d', rev (drop_cr (rev (32%N :: d))) = 32%N :: d'.
Proof.
  change (rev (32%N :: d)) with (rev d ++ [32%N]).
  destruct (rev d) as [|r rd] eqn:E.
  - exists []. reflexivity.
  - change ((r :: rd) ++ [32%N]) with (r :: (rd ++ [32%N])). unfold drop_cr.
    destruct (char_eqb r 13%N).
    + exists (rev rd). rewrite rev_app_distr. reflexivity.
    + exists (rev (r :: rd)). change (r :: rd ++ [32%N]) with ((r :: rd) ++ [32%N]).
      rewrite rev_app_distr. reflexivity.
Qed.

Lemma trim_start_app (a b : str) :
  trim_start (a ++ b) = if forallb is_whitespace a then trim_start b else trim_start a ++ b.
Proof.
  induction a as [|c a IH]; [reflexivity|].
  simpl. destruct (is_whitespace c); simpl; [exact IH | reflexivity].
Qed.

Lemma trim_end_app_nonws (x q : str) (c : char) (r : str) :
  rev x = c :: r -> is_whitespace c = false -> trim_end (x ++ q) = x ++ trim_end q.
Proof.
  intros Hx Hc. unfold trim_end. rewrite rev_app_distr, trim_start_app.
  destruct (forallb is_whitespace (rev q)) eqn:Q.
  - rewrite (trim_start_all_ws (rev q) Q). simpl.
    rewrite Hx. simpl. rewrite Hc, <- Hx, rev_involutive, app_nil_r. reflexivity.
  - rewrite rev_app_distr, rev_involutive. reflexivity.
Qed.

Lemma trim_end_space (d : str) :
  trim_end (32%N :: d) = [] \/ exists t, trim_end (32%N :: d) = 32%N :: t.
Proof.
  unfold trim_end. simpl. rewrite trim_start_app.
  destruct (forallb is_whitespace (rev d)).
  - left. reflexivity.
  - right. rewrite rev_app_distr. simpl. eauto.
Qed.

Lemma split_once_app (sep : char) (a b : str) :
  Forall (fun c => char_eqb c sep = false) a ->
  split_once sep (a ++ b)
  = match split_once sep b with Some (x, y) => Some (a ++ x, y) | None => None end.
Proof.
  induction 1 as [|c a Hc Ha IH]; simpl.
  - destruct (split_once sep b) as [[x y]|]; reflexivity.
  - rewrite Hc, IH. destruct (split_once sep b) as [[x y]|]; reflexivity.
Qed.

(** A [pick <n> ...] line with a well-formed index keeps item [n - 1]. *)
Lemma edit_line_pick (len k : nat) (D d : str) :
  D <> [] -> Forall (fun c => is_ascii_digit c = true) D ->
  parse_usize D = Some (N.of_nat (S k)) -> k < len ->
  edit_line len ((lit "pick " ++ D) ++ 32%N :: d) = Some (lit "pick", k).
Proof.
  intros Hne Hdig Hparse Hk.
  assert (Hspecial : forall c, In c D ->
            is_whitespace c = false /\ char_eqb c 32%N = false /\ char_eqb c 10%N = false).
  { intros c Hc. apply digit_not_special. rewrite Forall_forall in Hdig. auto. }
  assert (Htrim : exists T, trim ((lit "pick " ++ D) ++ 32%N :: d) = lit "pick " ++ D ++ T
                            /\ (T = [] \/ exists t, T = 32%N :: t)).
  { destruct (rev D) as [|c r] eqn:ER.
    { exfalso. apply Hne. rewrite <- (rev_involutive D), ER. reflexivity. }
    assert (Hc : is_whitespace c = false).
    { apply Hspecial. apply in_rev. rewrite ER. left. reflexivity. }
    unfold trim.
    rewrite (trim_end_app_nonws (lit "pick " ++ D) (32%N :: d) c (r ++ rev (lit "pick ")))
      by first [exact Hc | rewrite rev_app_distr, ER; reflexivity].
    exists (trim_end (32%N :: d)). split.
    - rewrite <- app_assoc. reflexivity.
    - apply trim_end_space. }
  destruct Htrim as (T & ET & HT).
  unfold edit_line. rewrite ET. simpl.
  assert (HD32 : Forall (fun c => char_eqb c 32%N = false) D).
  { apply Forall_forall. intros c Hc. apply Hspecial. exact Hc. }
  rewrite (split_once_app 32%N D T HD32).
  destruct HT as [->|(t & ->)]; simpl; rewrite app_nil_r, Hparse;
    rewrite (proj2 (N.ltb_lt 0 (N.of_nat (S k)))) by lia;
    rewrite (proj2 (N.leb_le (N.of_nat (S k)) (N.of_nat len))) by lia;
    rewrite Nat2N.id; simpl; rewrite Nat.sub_0_r; reflexivity.
Qed.

(** *** The whole buffer *)

Lemma pick_line_eq (k : nat) (it : TodoItem) :
  pick_line (k, it)
  = ((lit "pick " ++ fmt_usize (N.of_nat (S k))) ++ 32%N :: desc it) ++ [10%N].
Proof. unfold pick_line. rewrite <- !app_assoc. reflexivity. Qed.

Lemma kept_pick_lines (len : nat) (l : list TodoItem) (k : nat) (tail : str) :
  k + length l <= len -> (N.of_nat len < 2 ^ 64)%N ->
  Forall (fun it => ~ In 10%N (desc it)) l ->
  flat_map (edit_kept len) (lines_from [] (concat (map pick_line (enumerate_from k l)) ++ tail))
  = seq k (length l) ++ flat_map (edit_kept len) (lines_from [] tail).
Proof.
  revert k; induction l as [|x l IH]; intros k Hlen H64 Hdesc; [reflexivity|].
  inversion Hdesc as [|? ? Hx Hl]; subst.
  simpl in Hlen.
  cbn [enumerate_from map concat]. rewrite pick_line_eq.
  set (D := fmt_usize (N.of_nat (S k))).
  assert (Hdig : Forall (fun c => is_ascii_digit c = true) D) by apply fmt_dec_digits.
  assert (Hne : D <> []) by (destruct (fmt_usize_cons (N.of_nat (S k))) as (c & r & E);
                             unfold D; rewrite E; discriminate).
  assert (Hparse : parse_usize D = Some (N.of_nat (S k))) by (apply parse_usize_fmt; lia).
  match goal with
  | |- context [lines_from [] (((?A ++ [10%N]) ++ ?R) ++ ?T)] =>
      replace (((A ++ [10%N]) ++ R) ++ T) with (A ++ 10%N :: (R ++ T))
        by (rewrite <- !app_assoc; reflexivity)
  end.
  rewrite lines_from_app.
  2:{ rewrite !in_app_iff. intros [[H|H]|H].
      - vm_compute in H. repeat destruct H as [H|H]; try discriminate H; exact H.
      - rewrite Forall_forall in Hdig. apply Hdig in H.
        destruct (digit_not_special 10%N H) as (_ & _ & H10). discriminate H10.
      - destruct H as [H|H]; [discriminate H | exact (Hx H)]. }
  rewrite app_nil_r, rev_app_distr, drop_cr_app by (simpl; destruct (rev (desc x)); discriminate).
  rewrite rev_app_distr, rev_involutive.
  destruct (drop_cr_space (desc x)) as (d' & Ed). rewrite Ed.
  cbn [flat_map]. unfold edit_kept at 1.
  rewrite (edit_line_pick len k D d' Hne Hdig Hparse) by lia.
  rewrite (IH (S k)) by (assumption || lia).
  reflexivity.
Qed.

Lemma comment_block_kept (len : nat) :
  flat_map (edit_kept len) (lines_from [] edit_comment_block) = [].
Proof. reflexivity. Qed.

Lemma nth_items_seq (pre l : list TodoItem) :
  nth_items (pre ++ l) (seq (length pre) (length l)) = l.
Proof.
  revert pre; induction l as [|x l IH]; intro pre; [reflexivity|].
  simpl. unfold nth_items at 1. simpl.
  rewrite nth_error_app2, Nat.sub_diag by lia. simpl.
  specialize (IH (pre ++ [x])). rewrite <- app_assoc, length_app in IH. simpl in IH.
  rewrite Nat.add_1_r in IH. exact (f_equal (cons x) IH).
Qed.

Definition item_nl : TodoItem :=
  mkItem (lit "abc1234") (lit "buy" ++ [10%N] ++ lit "p 1") false (Some (lit "default")).

(** C9, as stated, fails: a description holding a newline splits its
    [pick] line in two, and the second half ["p 1"] picks the item again. *)
Lemma edit_roundtrip_counterexample :
  parse_edit_commands (edit_buffer [item_nl]) [item_nl] = Ok [item_nl; item_nl].
Proof. vm_compute. reflexivity. Qed.

(** C9 (amended). For every list of fewer than [2^64] items none of whose
    descriptions contains a newline, re-ingesting the unmodified scratch
    buffer gives back exactly the same items, in the same order. *)
Theorem edit_roundtrip (its : list TodoItem) :
  (N.of_nat (length its) < 2 ^ 64)%N ->
  Forall (fun it => ~ In 10%N (desc it)) its ->
  parse_edit_commands (edit_buffer its) its = Ok its.
Proof.
  intros H64 Hdesc. unfold parse_edit_commands. f_equal.
  rewrite parse_edit_loop_kept. simpl.
  unfold lines, edit_buffer, enumerate.
  rewrite (kept_pick_lines (length its) its 0 edit_comment_block) by (assumption || lia).
  rewrite comment_block_kept, app_nil_r.
  exact (nth_items_seq [] its).
Qed.

(** C9: a witness, two items (one completed, one with an empty tag). *)
Lemma edit_roundtrip_witness :
  parse_edit_commands (edit_buffer [item_c1; item_b]) [item_c1; item_b] = Ok [item_c1; item_b].
Proof.
  apply edit_roundtrip.
  - vm_compute. reflexivity.
  - repeat constructor; vm_compute; intro H; repeat destruct H as [H|H]; discriminate H || exact H.
Defined.

(** * Further properties of the code *)

(** ** Completing items ([mark_done], [done]) *)

Lemma same_but_completion_refl (it : TodoItem) : same_but_completion it it.
Proof. unfold same_but_completion. auto. Qed.

Lemma same_but_completion_trans (a b c : TodoItem) :
  same_but_completion a b -> same_but_completion b c -> same_but_completion a c.
Proof.
  unfold same_but_completion. intros (H1 & H2 & H3 & H4) (K1 & K2 & K3 & K4).
  repeat split; congruence || auto.
Qed.

Lemma Forall2_same_refl (l : list TodoItem) : Forall2 same_but_completion l l.
Proof. induction l; constructor; auto using same_but_completion_refl. Qed.

Lemma Forall2_same_trans (a b c : list TodoItem) :
  Forall2 same_but_completion a b -> Forall2 same_but_completion b c ->
  Forall2 same_but_completion a c.
Proof.
  intros H; revert c; induction H as [|x y a b Hxy Hab IH]; intros c Hc;
    inversion Hc; subst; constructor; eauto using same_but_completion_trans.
Qed.

Lemma vec_update_completes (its : list TodoItem) (i : nat) (it : TodoItem) :
  nth_error its i = Some it -> is_completed it = false ->
  Forall2 same_but_completion its (vec_update its i set_completed)
  /\ count_completed (vec_update its i set_completed) = S (count_completed its).
Proof.
  unfold count_completed.
  revert i; induction its as [|x its IH]; intros [|i] E Hc; try discriminate.
  - injection E as ->. simpl. rewrite Hc. split.
    + constructor; [|apply Forall2_same_refl].
      unfold same_but_completion. simpl. auto.
    + reflexivity.
  - simpl in E. destruct (IH i E Hc) as [H1 H2]. simpl. split.
    + constructor; [apply same_but_completion_refl | exact H1].
    + destruct (is_completed x); simpl; rewrite H2; reflexivity.
Qed.

(** [mark_done] changes at most one item, and only its completion: on
    [Ok n] (always [n = 1]) every item keeps its hash, description and tag,
    no completed item is reopened and exactly one more item is completed;
    on any error the list is unchanged. *)
Theorem mark_done_completes_one (l : TodoList) (h : str) :
  match mark_done l h with
  | (Ok n, l') => n = 1 /\ Forall2 same_but_completion (items l) (items l')
                  /\ count_completed (items l') = S (count_completed (items l))
  | (Err _, l') => l' = l
  end.
Proof.
  unfold mark_done. destruct (matching_items (items l) h) as [|i [|j ms]]; try reflexivity.
  destruct (nth_error (items l) i) as [it|] eqn:E; [|reflexivity].
  destruct (is_completed it) eqn:Hc; [reflexivity|]. simpl.
  destruct (vec_update_completes (items l) i it E Hc). auto.
Qed.

Lemma done_loop_completes (hs : list str) (l : TodoList) (c : nat) (errs : list str) :
  let '(l', c', _) := done_loop hs l c errs in
  Forall2 same_but_completion (items l) (items l')
  /\ count_completed (items l') + c = count_completed (items l) + c'.
Proof.
  revert l c errs; induction hs as [|p hs IH]; intros l c errs; simpl.
  - split; [apply Forall2_same_refl | reflexivity].
  - destruct (is_empty (trim p)); [apply IH|].
    pose proof (mark_done_completes_one l p) as M.
    destruct (mark_done l p) as [[n|e] l1].
    + destruct M as (_ & M1 & M2).
      specialize (IH l1 (S c) errs).
      destruct (done_loop hs l1 (S c) errs) as [[l' c'] e'].
      destruct IH as [I1 I2]. split; [eapply Forall2_same_trans; eassumption | lia].
    + subst l1. destruct e; apply IH.
Qed.

(** When [done] saves the list it succeeds, and the saved list is the
    loaded one with some open items completed: same items in the same
    order, hashes, descriptions and tags unchanged, nothing reopened, and at
    least one more completed item. *)
Theorem done_saves_completions (hs : list str) (l : TodoList) :
  match done hs l with
  | (r, Some l') => r = Ok tt /\ Forall2 same_but_completion (items l) (items l')
                    /\ count_completed (items l) < count_completed (items l')
  | (_, None) => True
  end.
Proof.
  unfold done. destruct (items l) as [|x xs] eqn:E; [exact I|].
  pose proof (done_loop_completes hs l 0 []) as D.
  destruct (done_loop hs l 0 []) as [[l' c] errs].
  rewrite E in D. destruct D as [D1 D2].
  destruct (Nat.ltb_spec 0 c) as [Hc|Hc]; [|destruct errs; [exact I|]; destruct (Nat.eqb c 0); exact I].
  assert (R : (match errs with
               | [] => (Ok tt, Some l')
               | _ :: _ => if Nat.eqb c 0 then (Err (lit "No todos were marked as done"), Some l')
                           else (Ok tt, Some l')
               end : result unit str * option TodoList) = (Ok tt, Some l')).
  { destruct errs; [reflexivity|]. destruct (Nat.eqb_spec c 0); [lia | reflexivity]. }
  rewrite R. repeat split; [exact D1 | lia].
Qed.

Lemma done_loop_blank (hs : list str) (l : TodoList) (c : nat) (errs : list str) :
  Forall (fun p => trim p = []) hs ->
  done_loop hs l c errs = (l, c, errs ++ map (fun _ => lit "Empty hash prefix provided") hs).
Proof.
  intro H. revert errs; induction H as [|p hs Hp Hs IH]; intro errs; simpl.
  - rewrite app_nil_r. reflexivity.
  - rewrite Hp. simpl. rewrite IH, <- app_assoc. reflexivity.
Qed.

(** [done] with only blank prefixes (and at least one) fails with
    ["No todos were marked as done"] and saves nothing. *)
Theorem done_blank_prefixes_fail (hs : list str) (l : TodoList) :
  items l <> [] -> hs <> [] -> Forall (fun p => trim p = []) hs ->
  done hs l = (Err (lit "No todos were marked as done"), None).
Proof.
  intros Hl Hhs Hb. unfold done.
  destruct (items l) as [|x xs] eqn:E; [contradiction|].
  rewrite (done_loop_blank hs l 0 [] Hb). simpl.
  destruct hs as [|p hs]; [contradiction|]. reflexivity.
Qed.

(** [done_blank_prefixes_fail] on a one-item list and two blank prefixes. *)
Lemma done_blank_prefixes_fail_witness :
  (items (mkList [item_a]) <> [] /\ [lit ""; lit "  "] <> []
   /\ Forall (fun p => trim p = []) [lit ""; lit "  "])
  /\ done [lit ""; lit "  "] (mkList [item_a]) = (Err (lit "No todos were marked as done"), None).
Proof.
  split; [split; [discriminate | split; [discriminate | repeat constructor]] |].
  apply done_blank_prefixes_fail; [discriminate | discriminate | repeat constructor].
Defined.

(** ** Removing items ([rm]) *)

Lemma subseq_refl {A} (l : list A) : subseq l l.
Proof. induction l; constructor; assumption. Qed.

Lemma subseq_trans {A} (a b c : list A) : subseq a b -> subseq b c -> subseq a c.
Proof.
  intros Hab Hbc. revert a Hab.
  induction Hbc as [|x b c Hbc IH|x b c Hbc IH]; intros a Hab.
  - exact Hab.
  - inversion Hab; subst; constructor; auto.
  - constructor. auto.
Qed.

Lemma subseq_incl {A} (a b : list A) (x : A) : subseq a b -> In x a -> In x b.
Proof.
  induction 1 as [|y a b _ IH|y a b _ IH]; simpl; auto. intros [->|Hx]; auto.
Qed.

Lemma vec_remove_subseq {A} (l : list A) (i : nat) : subseq (vec_remove l i) l.
Proof.
  revert i; induction l as [|x l IH]; intros [|i]; simpl.
  - constructor.
  - constructor.
  - constructor. apply subseq_refl.
  - constructor. apply IH.
Qed.

Lemma rm_item_subseq (l : TodoList) (p : str) : subseq (items (snd (rm_item l p))) (items l).
Proof.
  unfold rm_item. destruct (matching_items (items l) p) as [|i [|j ms]];
    try apply subseq_refl.
  destruct (nth_error (items l) i); [apply vec_remove_subseq | apply subseq_refl].
Qed.

Lemma rm_loop_subseq (hs : list str) (l : TodoList) : subseq (items (rm_loop hs l)) (items l).
Proof.
  revert l; induction hs as [|p hs IH]; intro l; simpl; [apply subseq_refl|].
  destruct (is_empty (trim p)); [apply IH|].
  eapply subseq_trans; [apply IH | apply rm_item_subseq].
Qed.

(** [rm] succeeds exactly when it is given at least one prefix and the
    loaded list is not empty, and then always saves; the saved list is the
    loaded one with some items left out, the others unchanged and in their
    order. When it fails it saves nothing. *)
Theorem rm_saves_subsequence (hs : list str) (load : result TodoList str) :
  match rm hs load with
  | (Ok _, Some l') => hs <> [] /\ exists l, load = Ok l /\ items l <> []
                                             /\ subseq (items l') (items l)
  | (Ok _, None) => False
  | (Err _, saved) => saved = None
                      /\ (hs = [] \/ (exists e, load = Err e) \/ (exists l, load = Ok l /\ items l = []))
  end.
Proof.
  unfold rm. destruct hs as [|p hs]; [auto|].
  destruct load as [l|e]; [|eauto].
  destruct (items l) as [|x xs] eqn:E; [eauto 6|].
  split; [discriminate|]. exists l. rewrite E.
  split; [reflexivity|]. split; [discriminate|]. rewrite <- E. apply rm_loop_subseq.
Qed.

(** When no prefix given to [rm] matches exactly one item (each is blank,
    matches nothing, or matches several), [rm] still succeeds and saves the
    loaded list unchanged. *)
Theorem rm_without_unique_match_keeps (hs : list str) (l : TodoList) :
  hs <> [] -> items l <> [] ->
  Forall (fun p => is_empty (trim p) = true
                   \/ length (filter (fun it => starts_with (hash it) p) (items l)) <> 1) hs ->
  rm hs (Ok l) = (Ok tt, Some l).
Proof.
  intros Hhs Hl Hall.
  assert (K : rm_loop hs l = l).
  { clear Hhs. induction Hall as [|p hs Hp Hs IH]; [reflexivity|]. simpl.
    destruct (is_empty (trim p)) eqn:B; [exact IH|].
    destruct Hp as [Hp|Hp]; [discriminate|].
    assert (R : snd (rm_item l p) = l).
    { unfold rm_item. rewrite <- matching_items_length in Hp.
      destruct (matching_items (items l) p) as [|i [|j ms]]; try reflexivity.
      simpl in Hp. lia. }
    rewrite R. exact IH. }
  unfold rm. destruct hs as [|p0 hs0]; [contradiction|].
  destruct (items l) as [|x xs] eqn:E; [contradiction|].
  rewrite K. reflexivity.
Qed.

(** [rm_without_unique_match_keeps]: an ambiguous, an unknown and a blank
    prefix. *)
Lemma rm_without_unique_match_keeps_witness :
  ([lit "abc"; lit "zzz"; lit " "] <> [] /\ items (mkList [item_c1; item_c2]) <> []
   /\ Forall (fun p => is_empty (trim p) = true
                       \/ length (filter (fun it => starts_with (hash it) p)
                                    (items (mkList [item_c1; item_c2]))) <> 1)
             [lit "abc"; lit "zzz"; lit " "])
  /\ rm [lit "abc"; lit "zzz"; lit " "] (Ok (mkList [item_c1; item_c2]))
     = (Ok tt, Some (mkList [item_c1; item_c2])).
Proof.
  assert (H : Forall (fun p => is_empty (trim p) = true
                       \/ length (filter (fun it => starts_with (hash it) p)
                                    (items (mkList [item_c1; item_c2]))) <> 1)
             [lit "abc"; lit "zzz"; lit " "]).
  { apply Forall_cons; [right; vm_compute; discriminate|].
    apply Forall_cons; [right; vm_compute; discriminate|].
    apply Forall_cons; [left; vm_compute; reflexivity|].
    apply Forall_nil. }
  split; [split; [discriminate | split; [discriminate | exact H]] |].
  apply rm_without_unique_match_keeps; [discriminate | discriminate | exact H].
Defined.

(** ** Adding items ([add]) *)

Lemma add_loop_spec (gen : nat -> str -> option str -> str) (k : nat) (tag : option str)
    (todos : list str) (l : TodoList) :
  add_loop gen k tag todos l
  = if forallb (fun t => negb (is_empty (trim t))) todos
    then Ok (mkList (items l ++ map (fun '(j, t) => mkItem (gen j t tag) t false
                                 (Some (match tag with Some v => v | None => lit "default" end)))
                                 (enumerate_from k todos)))
    else Err (lit "Todo items cannot be empty").
Proof.
  revert k l; induction todos as [|t todos IH]; intros k l; simpl.
  - rewrite app_nil_r. destruct l; reflexivity.
  - destruct (is_empty (trim t)); simpl; [reflexivity|].
    rewrite IH. unfold add_item. simpl. rewrite <- app_assoc. reflexivity.
Qed.

Lemma forallb_nonblank (todos : list str) :
  forallb (fun t => negb (is_empty (trim t))) todos = true <-> Forall (fun t => trim t <> []) todos.
Proof.
  rewrite forallb_forall, Forall_forall.
  split; intros H t Ht; specialize (H t Ht).
  - destruct (trim t); [discriminate | discriminate].
  - destruct (trim t); [contradiction | reflexivity].
Qed.

Lemma add_ok_inv (gen : nat -> str -> option str -> str) (args : list str) (l l' : TodoList) :
  add gen args l = Ok l' ->
  exists v, get_flag [lit "-t"; lit "--tag"] args = Some v /\ v <> []
    /\ skipn 2 args <> [] /\ Forall (fun t => trim t <> []) (skipn 2 args)
    /\ items l' = items l ++ map (fun '(k, t) => mkItem (gen k t (Some v)) t false (Some v))
                                 (enumerate (skipn 2 args)).
Proof.
  unfold add. destruct (get_flag [lit "-t"; lit "--tag"] args) as [v|]; [|intros [=]].
  destruct (is_empty v) eqn:Ev; cbn [negb andb]; [intros [=]|].
  destruct (nth_error args 2); cbn [negb andb]; [|intros [=]].
  destruct (skipn 2 args) as [|t ts] eqn:S; [intros [=]|].
  rewrite add_loop_spec.
  destruct (forallb (fun t => negb (is_empty (trim t))) (t :: ts)) eqn:F; [|intros [=]].
  intro E. injection E as <-. exists v.
  split; [reflexivity|]. split; [destruct v; discriminate|]. split; [discriminate|].
  split; [apply forallb_nonblank; exact F | reflexivity].
Qed.

(** Whenever [add] succeeds, [args] holds [-t] or [--tag] followed by a
    non-empty tag [v] (the first such occurrence counts), and the saved list
    is the loaded one followed by one open item tagged [v] for each argument
    from the third one on, none of them blank, in order: the entries are
    [args[2..]] wherever the tag option stands. *)
Theorem add_appends_todos (gen : nat -> str -> option str -> str) (args : list str)
    (l l' : TodoList) :
  add gen args l = Ok l' ->
  exists v, get_flag [lit "-t"; lit "--tag"] args = Some v /\ v <> []
    /\ skipn 2 args <> [] /\ Forall (fun t => trim t <> []) (skipn 2 args)
    /\ items l' = items l ++ map (fun '(k, t) => mkItem (gen k t (Some v)) t false (Some v))
                                 (enumerate (skipn 2 args)).
Proof. exact (add_ok_inv gen args l l'). Qed.

(** [add_appends_todos] on [buy -t home milk]: the tag is [home], and the
    entries are [home] and [milk]. *)
Lemma add_appends_todos_witness :
  add (fun _ _ _ => lit "abc1234") [lit "buy"; lit "-t"; lit "home"; lit "milk"] new_list
  = Ok (mkList [mkItem (lit "abc1234") (lit "home") false (Some (lit "home"));
                mkItem (lit "abc1234") (lit "milk") false (Some (lit "home"))])
  /\ exists v, get_flag [lit "-t"; lit "--tag"] [lit "buy"; lit "-t"; lit "home"; lit "milk"] = Some v
    /\ v <> []
    /\ skipn 2 [lit "buy"; lit "-t"; lit "home"; lit "milk"] <> []
    /\ Forall (fun t => trim t <> []) (skipn 2 [lit "buy"; lit "-t"; lit "home"; lit "milk"])
    /\ items (mkList [mkItem (lit "abc1234") (lit "home") false (Some (lit "home"));
                      mkItem (lit "abc1234") (lit "milk") false (Some (lit "home"))])
       = items new_list
         ++ map (fun '(k, t) => mkItem ((fun _ _ _ => lit "abc1234") k t (Some v)) t false (Some v))
                (enumerate (skipn 2 [lit "buy"; lit "-t"; lit "home"; lit "milk"])).
Proof.
  split; [vm_compute; reflexivity|].
  apply (add_appends_todos (fun _ _ _ => lit "abc1234")
           [lit "buy"; lit "-t"; lit "home"; lit "milk"] new_list).
  vm_compute. reflexivity.
Defined.


(** [add] is all or nothing: if any argument from the third one on is
    blank, it fails, and no entry is added. *)
Theorem add_rejects_blank_todo (gen : nat -> str -> option str -> str) (args : list str)
    (l : TodoList) (t : str) :
  In t (skipn 2 args) -> trim t = [] -> exists e, add gen args l = Err e.
Proof.
  intros Hin Ht. destruct (add gen args l) as [l'|e] eqn:A; [|eauto].
  exfalso. destruct (add_ok_inv gen args l l' A) as (v & _ & _ & _ & Hf & _).
  rewrite Forall_forall in Hf. exact (Hf t Hin Ht).
Qed.

(** [add_rejects_blank_todo] on [-t work "buy milk" "  "]. *)
Lemma add_rejects_blank_todo_witness :
  exists e, add (fun _ _ _ => lit "abc1234")
                [lit "-t"; lit "work"; lit "buy milk"; lit "  "] new_list = Err e.
Proof.
  apply (add_rejects_blank_todo _ _ _ (lit "  ")).
  - simpl. right. left. reflexivity.
  - reflexivity.
Defined.

(** ** Re-ingesting an edited buffer ([parse_edit_commands], [edit]) *)

Lemma edit_kept_length (len : nat) (line : str) : length (edit_kept len line) <= 1.
Proof.
  unfold edit_kept. destruct (edit_line len line) as [[command index]|]; simpl; [|lia].
  destruct (str_eqb command (lit "drop") || str_eqb command (lit "d")); simpl; lia.
Qed.

Lemma nth_items_length (original : list TodoItem) (idx : list nat) :
  length (nth_items original idx) <= length idx.
Proof.
  induction idx as [|i idx IH]; [simpl; lia|].
  unfold nth_items in *. simpl. rewrite length_app.
  destruct (nth_error original i); simpl; lia.
Qed.

Lemma flat_map_kept_length (len : nat) (ls : list str) :
  length (flat_map (edit_kept len) ls) <= length ls.
Proof.
  induction ls as [|x ls IH]; simpl; [lia|].
  rewrite length_app. pose proof (edit_kept_length len x). lia.
Qed.

(** [parse_edit_commands] never fails; it keeps only items of the original
    list, and at most one per line of the buffer. *)
Theorem parse_edit_commands_from_original (content : str) (its : list TodoItem) :
  match parse_edit_commands content its with
  | Ok r => Forall (fun it => In it its) r /\ length r <= length (lines content)
  | Err _ => False
  end.
Proof.
  unfold parse_edit_commands. rewrite parse_edit_loop_kept. simpl. split.
  - apply Forall_forall. intros it Hin.
    destruct (nth_items_in _ _ _ Hin) as (j & _ & E). exact (nth_error_In _ _ E).
  - eapply Nat.le_trans; [apply nth_items_length | apply flat_map_kept_length].
Qed.

Lemma trim_cr (x : str) : trim (x ++ [13%N]) = trim x.
Proof. unfold trim, trim_end. rewrite rev_app_distr. reflexivity. Qed.

Lemma drop_cr_kept (len : nat) (cur : str) :
  edit_kept len (rev (drop_cr cur)) = edit_kept len (rev cur).
Proof.
  destruct cur as [|r cur]; [reflexivity|]. unfold drop_cr.
  destruct (char_eqb r 13%N) eqn:E; [|reflexivity].
  apply char_eqb_true in E. subst r. simpl.
  unfold edit_kept, edit_line. rewrite trim_cr. reflexivity.
Qed.

Lemma lines_from_app_kept (len : nat) (cur c1 c2 : str) :
  flat_map (edit_kept len) (lines_from cur (c1 ++ 10%N :: c2))
  = flat_map (edit_kept len) (lines_from cur c1) ++ flat_map (edit_kept len) (lines_from [] c2).
Proof.
  revert cur; induction c1 as [|c c1 IH]; intro cur.
  - simpl. rewrite drop_cr_kept. destruct cur as [|r cur]; [reflexivity|].
    simpl. rewrite app_nil_r. reflexivity.
  - simpl. destruct (char_eqb c 10%N).
    + simpl. rewrite IH, app_assoc. reflexivity.
    + apply IH.
Qed.

Lemma nth_items_app (original : list TodoItem) (a b : list nat) :
  nth_items original (a ++ b) = nth_items original a ++ nth_items original b.
Proof. unfold nth_items. apply flat_map_app. Qed.

(** Buffers compose: the items kept from two buffers joined by a newline
    are the items kept from the first followed by those kept from the
    second. *)
Theorem parse_edit_commands_app (c1 c2 : str) (its r1 r2 : list TodoItem) :
  parse_edit_commands c1 its = Ok r1 -> parse_edit_commands c2 its = Ok r2 ->
  parse_edit_commands (c1 ++ 10%N :: c2) its = Ok (r1 ++ r2).
Proof.
  unfold parse_edit_commands, lines. rewrite !parse_edit_loop_kept.
  intros E1 E2. injection E1 as <-. injection E2 as <-.
  rewrite lines_from_app_kept, nth_items_app. reflexivity.
Qed.

(** [parse_edit_commands_app]: [pick 2] joined with [drop 1] and [p 1]. *)
Lemma parse_edit_commands_app_witness :
  (parse_edit_commands (lit "pick 2") [item_a; item_b] = Ok [item_b]
   /\ parse_edit_commands (lit "drop 1" ++ 10%N :: lit "p 1") [item_a; item_b] = Ok [item_a])
  /\ parse_edit_commands (lit "pick 2" ++ 10%N :: (lit "drop 1" ++ 10%N :: lit "p 1")) [item_a; item_b]
     = Ok ([item_b] ++ [item_a]).
Proof.
  assert (H1 : parse_edit_commands (lit "pick 2") [item_a; item_b] = Ok [item_b])
    by (vm_compute; reflexivity).
  assert (H2 : parse_edit_commands (lit "drop 1" ++ 10%N :: lit "p 1") [item_a; item_b] = Ok [item_a])
    by (vm_compute; reflexivity).
  split; [split; assumption|].
  exact (parse_edit_commands_app _ _ _ _ _ H1 H2).
Defined.

Lemma lines_from_single (cur x : str) :
  ~ In 10%N x -> cur <> [] \/ x <> [] -> lines_from cur x = [rev cur ++ x].
Proof.
  revert cur; induction x as [|c x IH]; intros cur Hx Hne.
  - destruct cur as [|r cur]; [destruct Hne; contradiction|].
    simpl. rewrite app_nil_r. reflexivity.
  - simpl. assert (Hc : char_eqb c 10%N = false).
    { apply N.eqb_neq. intro E. apply Hx. left. exact E. }
    rewrite Hc, IH by (intros H; apply Hx; right; exact H) || (left; discriminate).
    simpl. rewrite <- app_assoc. reflexivity.
Qed.

Lemma nonws_not_space (w : str) :
  Forall (fun c => is_whitespace c = false) w -> Forall (fun c => char_eqb c 32%N = false) w.
Proof.
  apply Forall_impl. intros c Hc. apply N.eqb_neq. intros ->. discriminate Hc.
Qed.

Lemma trim_word_num (w : str) (n : N) :
  w <> [] -> Forall (fun c => is_whitespace c = false) w ->
  trim (w ++ 32%N :: fmt_usize n) = w ++ 32%N :: fmt_usize n.
Proof.
  intros Hw Hws. set (D := fmt_usize n).
  assert (Hdig : Forall (fun c => is_ascii_digit c = true) D) by apply fmt_dec_digits.
  destruct (rev D) as [|d rd] eqn:ER.
  { exfalso. destruct (fmt_usize_cons n) as (c & r & E).
    fold D in E. rewrite E in ER. simpl in ER. destruct (rev r); discriminate. }
  assert (Hd : is_whitespace d = false).
  { apply digit_not_special. rewrite Forall_forall in Hdig. apply Hdig.
    apply in_rev. rewrite ER. left. reflexivity. }
  assert (Hr : rev (w ++ 32%N :: D) = d :: (rd ++ rev (w ++ [32%N]))).
  { replace (w ++ 32%N :: D) with ((w ++ [32%N]) ++ D) by (rewrite <- app_assoc; reflexivity).
    rewrite rev_app_distr, ER. reflexivity. }
  pose proof (trim_end_app_nonws (w ++ 32%N :: D) [] d _ Hr Hd) as T.
  rewrite !app_nil_r in T. unfold trim. rewrite T.
  destruct w as [|c0 w']; [contradiction|]. inversion Hws as [|? ? Hc0 _]; subst.
  simpl. rewrite Hc0. reflexivity.
Qed.

Lemma splitn_word_num (w D : str) :
  Forall (fun c => char_eqb c 32%N = false) w -> Forall (fun c => char_eqb c 32%N = false) D ->
  splitn 3 32%N (w ++ 32%N :: D) = [w; D].
Proof.
  intros Hw HD.
  assert (HN : split_once 32%N D = None).
  { rewrite <- (app_nil_r D), (split_once_app 32%N D [] HD). reflexivity. }
  change (splitn 3 32%N (w ++ 32%N :: D))
    with (match split_once 32%N (w ++ 32%N :: D) with
          | Some (a, rest) => a :: splitn 2 32%N rest
          | None => [w ++ 32%N :: D]
          end).
  rewrite (split_once_app 32%N w (32%N :: D) Hw). simpl. rewrite HN, app_nil_r. reflexivity.
Qed.

Lemma edit_line_word (len : nat) (w : str) (n : N) :
  w <> [] -> Forall (fun c => is_whitespace c = false) w -> hd 0%N w <> 35%N ->
  (n < 2 ^ 64)%N ->
  edit_line len (w ++ 32%N :: fmt_usize n)
  = if (0 <? n)%N && (n <=? N.of_nat len)%N then Some (w, N.to_nat n - 1) else None.
Proof.
  intros Hw Hws Hhd H64.
  assert (HD : Forall (fun c => char_eqb c 32%N = false) (fmt_usize n)).
  { eapply Forall_impl; [|apply fmt_dec_digits].
    intros c Hc. exact (proj1 (proj2 (digit_not_special c Hc))). }
  unfold edit_line. rewrite trim_word_num by assumption.
  assert (Hs : is_empty (w ++ 32%N :: fmt_usize n) || starts_with (w ++ 32%N :: fmt_usize n) (lit "#")
               = false).
  { destruct w as [|c0 w']; [contradiction|]. simpl in Hhd.
    change (false || (char_eqb 35%N c0 && starts_with (w' ++ 32%N :: fmt_usize n) []) = false).
    replace (starts_with (w' ++ 32%N :: fmt_usize n) []) with true
      by (destruct (w' ++ 32%N :: fmt_usize n); reflexivity).
    unfold char_eqb.
    destruct (N.eqb_spec 35 c0); [congruence | reflexivity]. }
  rewrite Hs, splitn_word_num by (assumption || apply nonws_not_space; assumption).
  rewrite parse_usize_fmt by exact H64. reflexivity.
Qed.

(** A one-line buffer [w n], with a command word [w] (no whitespace, not
    starting with ['#']) and a number [n]: when [1 <= n <= len] the line keeps
    item [n] unless [w] is [drop] or [d] (any other word, [pick], [p] or
    not, keeps it); an index out of range keeps nothing, whatever the
    word. *)
Theorem parse_edit_single_line (w : str) (n : N) (its : list TodoItem) :
  w <> [] -> Forall (fun c => is_whitespace c = false) w -> hd 0%N w <> 35%N ->
  (n < 2 ^ 64)%N ->
  parse_edit_commands (w ++ 32%N :: fmt_usize n) its
  = Ok (if (0 <? n)%N && (n <=? N.of_nat (length its))%N
           && negb (str_eqb w (lit "drop") || str_eqb w (lit "d"))
        then nth_items its [N.to_nat n - 1] else []).
Proof.
  intros Hw Hws Hhd H64.
  assert (Hnl : ~ In 10%N (w ++ 32%N :: fmt_usize n)).
  { rewrite in_app_iff. intros [H|[H|H]].
    - rewrite Forall_forall in Hws. specialize (Hws _ H). discriminate Hws.
    - discriminate H.
    - pose proof (fmt_dec_digits 20 n) as Hd. rewrite Forall_forall in Hd.
      destruct (digit_not_special _ (Hd _ H)) as (_ & _ & H10). discriminate H10. }
  unfold parse_edit_commands, lines. rewrite parse_edit_loop_kept.
  rewrite lines_from_single by (assumption || (right; destruct w; [contradiction | discriminate])).
  simpl flat_map. rewrite app_nil_r. unfold edit_kept.
  rewrite edit_line_word by assumption.
  destruct ((0 <? n)%N && (n <=? N.of_nat (length its))%N); [|reflexivity].
  destruct (str_eqb w (lit "drop") || str_eqb w (lit "d")); reflexivity.
Qed.

(** [parse_edit_single_line] on [remove 1]: an unknown word keeps the item. *)
Lemma parse_edit_single_line_witness :
  (lit "remove" <> [] /\ Forall (fun c => is_whitespace c = false) (lit "remove")
   /\ hd 0%N (lit "remove") <> 35%N /\ (1 < 2 ^ 64)%N)
  /\ parse_edit_commands (lit "remove" ++ 32%N :: fmt_usize 1) [item_a]
     = Ok (if (0 <? 1)%N && (1 <=? N.of_nat (length [item_a]))%N
              && negb (str_eqb (lit "remove") (lit "drop") || str_eqb (lit "remove") (lit "d"))
           then nth_items [item_a] [N.to_nat 1 - 1] else []).
Proof.
  assert (Hws : Forall (fun c => is_whitespace c = false) (lit "remove")) by repeat constructor.
  assert (H64 : (1 < 2 ^ 64)%N) by (vm_compute; reflexivity).
  split; [split; [discriminate | split; [exact Hws | split; [discriminate | exact H64]]]|].
  apply parse_edit_single_line; [discriminate | exact Hws | discriminate | exact H64].
Defined.

(** A buffer whose lines are all blank or comments empties the list: [edit]
    succeeds and saves no item. *)
Theorem edit_without_directives_clears (l : TodoList) (buffer : str) :
  items l <> [] ->
  forallb (fun line => is_empty (trim line) || starts_with (trim line) (lit "#")) (lines buffer)
  = true ->
  edit l buffer = Ok new_list.
Proof.
  intros Hl Hb. rewrite edit_result by exact Hl.
  assert (P : picked_indices (length (items l)) buffer = []).
  { unfold picked_indices. rewrite forallb_forall in Hb.
    induction (lines buffer) as [|x ls IH]; [reflexivity|]. simpl.
    rewrite IH by (intros y Hy; apply Hb; right; exact Hy).
    unfold edit_kept, edit_line. rewrite Hb by (left; reflexivity). reflexivity. }
  rewrite P. reflexivity.
Qed.

(** [edit_without_directives_clears] on the comment block alone. *)
Lemma edit_without_directives_clears_witness :
  (items (mkList [item_a]) <> []
   /\ forallb (fun line => is_empty (trim line) || starts_with (trim line) (lit "#"))
              (lines edit_comment_block) = true)
  /\ edit (mkList [item_a]) edit_comment_block = Ok new_list.
Proof.
  assert (H : forallb (fun line => is_empty (trim line) || starts_with (trim line) (lit "#"))
                      (lines edit_comment_block) = true) by (vm_compute; reflexivity).
  split; [split; [discriminate | exact H]|].
  apply edit_without_directives_clears; [discriminate | exact H].
Defined.

(** ** Short hashes ([generate_short_hash]) *)

(** At least [k + 1] base-[b] digits for a value of at least [b^k]. *)
Lemma fmt_radix_length_ge (b : N) (digit : N -> char) (fuel k : nat) (n : N) :
  (2 <= b)%N -> (b ^ N.of_nat k <= n)%N -> (n < b ^ N.of_nat fuel)%N ->
  S k <= length (fmt_radix b digit fuel n).
Proof.
  intros Hb. revert n k.
  induction fuel as [|f IH]; intros n k Hk Hn.
  - change (N.of_nat 0) with 0%N in Hn. rewrite N.pow_0_r in Hn.
    assert (b ^ N.of_nat k <> 0)%N by (apply N.pow_nonzero; lia).
    lia.
  - simpl. destruct (N.ltb_spec n b) as [Hlt|Hge].
    + destruct k as [|k]; simpl; [lia|].
      rewrite Nat2N.inj_succ, N.pow_succ_r' in Hk.
      assert (b ^ N.of_nat k <> 0)%N by (apply N.pow_nonzero; lia).
      nia.
    + rewrite length_app. simpl.
      destruct k as [|k]; [lia|].
      assert (Hq1 : (b ^ N.of_nat k <= n / b)%N).
      { apply N.div_le_lower_bound; [lia|].
        rewrite <- N.pow_succ_r', <- Nat2N.inj_succ. exact Hk. }
      assert (Hq2 : (n / b < b ^ N.of_nat f)%N).
      { apply N.Div0.div_lt_upper_bound.
        rewrite <- N.pow_succ_r', <- Nat2N.inj_succ. exact Hn. }
      specialize (IH (n / b)%N k Hq1 Hq2). lia.
Qed.

Lemma fmt_radix_digits (P : char -> Prop) (b : N) (digit : N -> char) (fuel : nat) (n : N) :
  (0 < b)%N -> (forall d, (d < b)%N -> P (digit d)) -> Forall P (fmt_radix b digit fuel n).
Proof.
  intros Hb Hd. revert n; induction fuel as [|f IH]; intro n; simpl; [constructor|].
  destruct (N.ltb_spec n b).
  - constructor; [apply Hd; assumption | constructor].
  - apply Forall_app. split; [apply IH|].
    constructor; [apply Hd; apply N.mod_lt; lia | constructor].
Qed.

Lemma hex_digit_lower (d : N) : (d < 16)%N -> is_hex_lower (hex_digit d) = true.
Proof.
  intro H. unfold is_hex_lower, hex_digit, is_ascii_digit.
  destruct (N.ltb_spec d 10).
  - apply orb_true_iff. left. apply andb_true_iff. split; apply N.leb_le; lia.
  - apply orb_true_iff. right. apply andb_true_iff. split; apply N.leb_le; lia.
Qed.

(** For a 64-bit digest of at least [16^6], [generate_short_hash] returns a
    string of exactly 7 lowercase hexadecimal digits. *)
Theorem generate_short_hash_seven_hex (digest : str -> option str -> N -> N)
    (d : str) (t : option str) (nanos : N) :
  (16 ^ 6 <= digest d t nanos < 2 ^ 64)%N ->
  exists s, generate_short_hash digest d t nanos = Some s
            /\ length s = 7 /\ forallb is_hex_lower s = true.
Proof.
  intros [Hlo Hhi]. unfold generate_short_hash, slice_to, fmt_hex_u64.
  set (x := fmt_radix 16 hex_digit 16 (digest d t nanos)).
  assert (L : 7 <= length x).
  { apply (fmt_radix_length_ge 16 hex_digit 16 6); [lia | exact Hlo |].
    change (N.of_nat 16) with 16%N.
    replace (16 ^ 16)%N with (2 ^ 64)%N by reflexivity. exact Hhi. }
  assert (F : Forall (fun c => is_hex_lower c = true) x).
  { apply fmt_radix_digits; [lia | exact hex_digit_lower]. }
  destruct (Nat.leb_spec 7 (length x)) as [_|]; [|lia].
  exists (firstn 7 x). split; [reflexivity|]. split.
  - rewrite length_firstn. lia.
  - apply forallb_forall. intros c Hc. rewrite Forall_forall in F. apply F.
    rewrite <- (firstn_skipn 7 x). apply in_app_iff. left. exact Hc.
Qed.

(** [generate_short_hash_seven_hex] with a digest of [0xabcdef12]. *)
Lemma generate_short_hash_seven_hex_witness :
  (16 ^ 6 <= 0xabcdef12 < 2 ^ 64)%N
  /\ exists s, generate_short_hash (fun _ _ _ => 0xabcdef12%N) (lit "buy milk") None 0 = Some s
               /\ length s = 7 /\ forallb is_hex_lower s = true.
Proof.
  assert (H : (16 ^ 6 <= 0xabcdef12 < 2 ^ 64)%N)
    by (split; [apply N.leb_le | apply N.ltb_lt]; vm_compute; reflexivity).
  split; [exact H|].
  apply (generate_short_hash_seven_hex (fun _ _ _ => 0xabcdef12%N)). exact H.
Defined.

(** ** The argument parser ([CommandLine::parse_args]) *)

Section ParseArgsFacts.
Variables (fl op : list Cli.ArgSpec).

Lemma parse_cluster_mono (toks : list str) (cs : str) (i j : nat) (args r : list Cli.Arg) :
  Cli.parse_cluster toks fl op cs i args = Ok (j, r) -> i <= j.
Proof.
  revert i args; induction cs as [|c cs IH]; intros i args; cbn [Cli.parse_cluster].
  - intros [=]. lia.
  - destruct (find _ fl); [apply IH|].
    destruct (find _ op); [|intros [=]].
    destruct (nth_error toks (S i)); [|intros [=]].
    intro H. specialize (IH _ _ H). lia.
Qed.

Lemma parse_cluster_acc (toks : list str) (cs : str) (i : nat) (a b : list Cli.Arg) :
  Cli.parse_cluster toks fl op cs i (a ++ b)
  = match Cli.parse_cluster toks fl op cs i b with
    | Ok (j, r) => Ok (j, a ++ r)
    | Err e => Err e
    end.
Proof.
  revert i b; induction cs as [|c cs IH]; intros i b; cbn [Cli.parse_cluster]; [reflexivity|].
  destruct (find _ fl); [rewrite <- app_assoc; apply IH|].
  destruct (find _ op); [|reflexivity].
  destruct (nth_error toks (S i)); [|reflexivity].
  rewrite <- app_assoc. apply IH.
Qed.

Lemma parse_loop_acc (toks : list str) (fuel i : nat) (a b : list Cli.Arg) :
  Cli.parse_loop toks fl op fuel i (a ++ b)
  = match Cli.parse_loop toks fl op fuel i b with
    | Ok r => Ok (a ++ r)
    | Err e => Err e
    end.
Proof.
  revert i b; induction fuel as [|f IH]; intros i b; cbn [Cli.parse_loop]; [reflexivity|].
  destruct (nth_error toks i) as [token|]; [|reflexivity].
  destruct (starts_with token (lit "--")).
  - destruct (find _ fl); [rewrite <- app_assoc; apply IH|].
    destruct (find _ op); [|reflexivity].
    destruct (nth_error toks (S i)); [|reflexivity].
    rewrite <- app_assoc. apply IH.
  - destruct (starts_with token (lit "-")).
    + rewrite parse_cluster_acc.
      destruct (Cli.parse_cluster toks fl op (skipn 1 token) i b) as [[j r]|e]; [apply IH|reflexivity].
    + rewrite <- app_assoc. apply IH.
Qed.

Lemma nth_error_shift {A} (pre toks : list A) (i : nat) :
  nth_error (pre ++ toks) (length pre + i) = nth_error toks i.
Proof. rewrite nth_error_app2 by lia. f_equal. lia. Qed.

Lemma parse_cluster_shift (pre toks : list str) (cs : str) (i : nat) (args : list Cli.Arg) :
  Cli.parse_cluster (pre ++ toks) fl op cs (length pre + i) args
  = match Cli.parse_cluster toks fl op cs i args with
    | Ok (j, r) => Ok (length pre + j, r)
    | Err e => Err e
    end.
Proof.
  revert i args; induction cs as [|c cs IH]; intros i args; cbn [Cli.parse_cluster]; [reflexivity|].
  destruct (find _ fl); [apply IH|].
  destruct (find _ op); [|reflexivity].
  replace (S (length pre + i)) with (length pre + S i) by lia.
  rewrite nth_error_shift.
  destruct (nth_error toks (S i)); [apply IH|reflexivity].
Qed.

Lemma parse_loop_shift (pre toks : list str) (fuel i : nat) (args : list Cli.Arg) :
  Cli.parse_loop (pre ++ toks) fl op fuel (length pre + i) args
  = Cli.parse_loop toks fl op fuel i args.
Proof.
  revert i args; induction fuel as [|f IH]; intros i args; cbn [Cli.parse_loop]; [reflexivity|].
  rewrite nth_error_shift.
  destruct (nth_error toks i) as [token|]; [|reflexivity].
  destruct (starts_with token (lit "--")).
  - destruct (find _ fl); [rewrite <- IH; f_equal; lia|].
    destruct (find _ op); [|reflexivity].
    replace (S (length pre + i)) with (length pre + S i) by lia.
    rewrite nth_error_shift.
    destruct (nth_error toks (S i)); [|reflexivity].
    rewrite <- IH. f_equal. lia.
  - destruct (starts_with token (lit "-")).
    + rewrite parse_cluster_shift.
      destruct (Cli.parse_cluster toks fl op (skipn 1 token) i args) as [[j r]|e]; [|reflexivity].
      rewrite <- IH. f_equal. lia.
    + rewrite <- IH. f_equal. lia.
Qed.

Lemma parse_loop_fuel (toks : list str) (fuel fuel' i : nat) (args : list Cli.Arg) :
  length toks <= i + fuel -> fuel <= fuel' ->
  Cli.parse_loop toks fl op fuel' i args = Cli.parse_loop toks fl op fuel i args.
Proof.
  revert fuel' i args; induction fuel as [|f IH]; intros fuel' i args Hlen Hle.
  - assert (E : nth_error toks i = None) by (apply nth_error_None; lia).
    destruct fuel'; cbn [Cli.parse_loop]; [reflexivity|]. rewrite E. reflexivity.
  - destruct fuel' as [|f']; [lia|]. cbn [Cli.parse_loop].
    destruct (nth_error toks i) as [token|]; [|reflexivity].
    destruct (starts_with token (lit "--")).
    + destruct (find _ fl); [apply IH; lia|].
      destruct (find _ op); [|reflexivity].
      destruct (nth_error toks (S i)); [apply IH; lia|reflexivity].
    + destruct (starts_with token (lit "-")); [|apply IH; lia].
      destruct (Cli.parse_cluster toks fl op (skipn 1 token) i args) as [[j r]|e] eqn:C;
        [|reflexivity].
      apply parse_cluster_mono in C. apply IH; lia.
Qed.

(** Once the tokens of [pre] are consumed, the loop parses the rest as a
    fresh call would, after the arguments read so far. *)
Lemma parse_loop_resume (pre rest : list str) (fuel : nat) (args : list Cli.Arg) :
  length rest <= fuel ->
  Cli.parse_loop (pre ++ rest) fl op fuel (length pre) args
  = match Cli.parse_loop rest fl op (S (length rest)) 0 [] with
    | Ok r => Ok (args ++ r)
    | Err e => Err e
    end.
Proof.
  intro H. rewrite <- (app_nil_r args), parse_loop_acc, app_nil_r.
  replace (length pre) with (length pre + 0) by lia. rewrite parse_loop_shift.
  rewrite (parse_loop_fuel rest (length rest) fuel) by lia.
  rewrite (parse_loop_fuel rest (length rest) (S (length rest))) by lia.
  reflexivity.
Qed.

Lemma parse_loop_long_option (toks : list str) (fuel i : nat) (args : list Cli.Arg)
    (token v : str) (sp : Cli.ArgSpec) :
  nth_error toks i = Some token -> starts_with token (lit "--") = true ->
  find (fun f => str_eqb (Cli.long f) (skipn 2 token)) fl = None ->
  find (fun o => str_eqb (Cli.long o) (skipn 2 token)) op = Some sp ->
  nth_error toks (S i) = Some v ->
  Cli.parse_loop toks fl op (S fuel) i args
  = Cli.parse_loop toks fl op fuel (S (S i)) (args ++ [Cli.ArgOption (Cli.name sp) v]).
Proof. intros H1 H2 H3 H4 H5. cbn [Cli.parse_loop]. rewrite H1, H2, H3, H4, H5. reflexivity. Qed.

Lemma parse_loop_short (toks : list str) (fuel i : nat) (args : list Cli.Arg) (token : str) :
  nth_error toks i = Some token -> starts_with token (lit "--") = false ->
  starts_with token (lit "-") = true ->
  Cli.parse_loop toks fl op (S fuel) i args
  = match Cli.parse_cluster toks fl op (skipn 1 token) i args with
    | Ok (i', args') => Cli.parse_loop toks fl op fuel (S i') args'
    | Err e => Err e
    end.
Proof. intros H1 H2 H3. cbn [Cli.parse_loop]. rewrite H1, H2, H3. reflexivity. Qed.

Lemma parse_cluster_flags (toks : list str) (cs : str) (i : nat) (args : list Cli.Arg)
    (f : char -> Cli.ArgSpec) :
  Forall (fun c => find (fun s => char_eqb (Cli.short s) c) fl = Some (f c)) cs ->
  Cli.parse_cluster toks fl op cs i args
  = Ok (i, args ++ map (fun c => Cli.ArgFlag (Cli.name (f c))) cs).
Proof.
  intro H. revert args; induction H as [|c cs Hc Hcs IH]; intro args; cbn [Cli.parse_cluster].
  - rewrite app_nil_r. reflexivity.
  - rewrite Hc, IH, <- app_assoc. reflexivity.
Qed.

End ParseArgsFacts.

Lemma skipn_nth_error {A} (l : list A) (i : nat) (x : A) :
  nth_error l i = Some x -> skipn i l = x :: skipn (S i) l.
Proof.
  revert i; induction l as [|y l IH]; intros [|i] H; simpl in H |- *; try discriminate.
  - injection H as ->. reflexivity.
  - exact (IH i H).
Qed.

Lemma no_dash_no_long (t : str) :
  starts_with t (lit "-") = false -> starts_with t (lit "--") = false.
Proof.
  destruct t as [|c t]; [reflexivity|]. intro H.
  change (char_eqb 45%N c && starts_with t [] = false) in H.
  change (char_eqb 45%N c && starts_with t [45%N] = false).
  destruct (char_eqb 45%N c); [|reflexivity].
  destruct t; discriminate H.
Qed.

Lemma parse_loop_values (fl op : list Cli.ArgSpec) (toks : list str) (fuel i : nat)
    (args : list Cli.Arg) :
  Forall (fun t => starts_with t (lit "-") = false) toks -> length toks <= i + fuel ->
  Cli.parse_loop toks fl op fuel i args = Ok (args ++ map Cli.ArgValue (skipn i toks)).
Proof.
  intro Hall. revert i args; induction fuel as [|f IH]; intros i args Hlen.
  - rewrite skipn_all2 by lia. simpl. rewrite app_nil_r. reflexivity.
  - cbn [Cli.parse_loop]. destruct (nth_error toks i) as [t|] eqn:E.
    + assert (Ht : starts_with t (lit "-") = false).
      { rewrite Forall_forall in Hall. apply Hall. exact (nth_error_In _ _ E). }
      rewrite (no_dash_no_long t Ht), Ht.
      rewrite IH by lia. rewrite (skipn_nth_error toks i t E), <- app_assoc. reflexivity.
    + apply nth_error_None in E. rewrite skipn_all2 by lia. simpl. rewrite app_nil_r. reflexivity.
Qed.

(** Tokens that do not start with ['-'] are all plain values: [parse_args]
    returns them in order as [Value]s, whatever the specification. *)
Theorem parse_args_plain_values (tokens : list str) (arg_spec : list Cli.ArgSpec) :
  Forall (fun t => starts_with t (lit "-") = false) tokens ->
  Cli.parse_args tokens arg_spec = Ok (map Cli.ArgValue tokens).
Proof.
  intro H. unfold Cli.parse_args. rewrite parse_loop_values by (assumption || lia).
  reflexivity.
Qed.

(** [parse_args_plain_values] on two descriptions for [add]. *)
Lemma parse_args_plain_values_witness :
  Forall (fun t => starts_with t (lit "-") = false) [lit "buy milk"; lit "walk"]
  /\ Cli.parse_args [lit "buy milk"; lit "walk"] (Cli.get_arg_specs_for Cli.Add)
     = Ok (map Cli.ArgValue [lit "buy milk"; lit "walk"]).
Proof.
  assert (H : Forall (fun t => starts_with t (lit "-") = false) [lit "buy milk"; lit "walk"])
    by (repeat constructor).
  split; [exact H | exact (parse_args_plain_values _ _ H)].
Defined.

(** For [add] and [log], [--tag] and [-t] take the next token as the tag,
    verbatim (even when it looks like a flag or an option), and the rest is
    parsed as if it stood alone; [Arg::get_option] then reads that value,
    whatever later tokens hold. *)
Theorem parse_args_tag_takes_next (cmd : Cli.Subcommand) (a v : str) (rest : list str) :
  In cmd [Cli.Add; Cli.Log] -> In a [lit "--tag"; lit "-t"] ->
  Cli.parse_args (a :: v :: rest) (Cli.get_arg_specs_for cmd)
  = match Cli.parse_args rest (Cli.get_arg_specs_for cmd) with
    | Ok args => Ok (Cli.ArgOption (lit "tag") v :: args)
    | Err e => Err e
    end
  /\ forall args, Cli.parse_args (a :: v :: rest) (Cli.get_arg_specs_for cmd) = Ok args ->
       Cli.get_option args (lit "tag") = Some v.
Proof.
  intros Hcmd Ha.
  assert (E : Cli.parse_args (a :: v :: rest) (Cli.get_arg_specs_for cmd)
              = match Cli.parse_args rest (Cli.get_arg_specs_for cmd) with
                | Ok args => Ok (Cli.ArgOption (lit "tag") v :: args)
                | Err e => Err e
                end).
  { unfold Cli.parse_args at 1.
    set (fl := filter (fun f => Cli.ArgKind_eqb (Cli.kind f) Cli.Flag) (Cli.get_arg_specs_for cmd)).
    set (op := filter (fun o => Cli.ArgKind_eqb (Cli.kind o) Cli.Option) (Cli.get_arg_specs_for cmd)).
    assert (Step : Cli.parse_loop (a :: v :: rest) fl op (S (length (a :: v :: rest))) 0 []
                   = Cli.parse_loop (a :: v :: rest) fl op (length (a :: v :: rest)) 2
                       [Cli.ArgOption (lit "tag") v]).
    { destruct Hcmd as [<-|[<-|[]]]; destruct Ha as [<-|[<-|[]]];
        first
        [ apply (parse_loop_long_option fl op _ _ 0 [] (lit "--tag") v
                   (Cli.mkSpec (lit "tag") 116%N (lit "tag") Cli.Option)); reflexivity
        | rewrite (parse_loop_short fl op (lit "-t" :: v :: rest) (length (lit "-t" :: v :: rest))
                     0 [] (lit "-t")) by reflexivity;
          reflexivity ]. }
    rewrite Step. change (a :: v :: rest) with ([a; v] ++ rest) at 1.
    change 2 with (length [a; v]).
    rewrite parse_loop_resume by (simpl; lia).
    unfold Cli.parse_args. fold fl op.
    destruct (Cli.parse_loop rest fl op (S (length rest)) 0 []); reflexivity. }
  split; [exact E|].
  intros args Hargs. rewrite E in Hargs.
  destruct (Cli.parse_args rest (Cli.get_arg_specs_for cmd)); [|discriminate].
  injection Hargs as <-. reflexivity.
Qed.

(** [parse_args_tag_takes_next] on [add -t --done walk]: the tag is
    [--done]. *)
Lemma parse_args_tag_takes_next_witness :
  (In Cli.Add [Cli.Add; Cli.Log] /\ In (lit "-t") [lit "--tag"; lit "-t"])
  /\ (Cli.parse_args [lit "-t"; lit "--done"; lit "walk"] (Cli.get_arg_specs_for Cli.Add)
      = match Cli.parse_args [lit "walk"] (Cli.get_arg_specs_for Cli.Add) with
        | Ok args => Ok (Cli.ArgOption (lit "tag") (lit "--done") :: args)
        | Err e => Err e
        end
      /\ forall args, Cli.parse_args [lit "-t"; lit "--done"; lit "walk"]
                                     (Cli.get_arg_specs_for Cli.Add) = Ok args ->
           Cli.get_option args (lit "tag") = Some (lit "--done")).
Proof.
  assert (H1 : In Cli.Add [Cli.Add; Cli.Log]) by (left; reflexivity).
  assert (H2 : In (lit "-t") [lit "--tag"; lit "-t"]) by (right; left; reflexivity).
  split; [split; assumption|].
  exact (parse_args_tag_takes_next Cli.Add (lit "-t") (lit "--done") [lit "walk"] H1 H2).
Defined.

(** For [log], a token ["-"] followed by letters [d] and [u] gives the
    flags [done] and [undone] in the order of the letters, and the rest is
    parsed as if it stood alone; when [d] is among the letters,
    [Arg::get_flag] finds [done]. *)
Theorem parse_args_log_flag_cluster (cs : str) (rest : list str) :
  Forall (fun c => c = 100%N \/ c = 117%N) cs ->
  Cli.parse_args ((lit "-" ++ cs) :: rest) (Cli.get_arg_specs_for Cli.Log)
  = match Cli.parse_args rest (Cli.get_arg_specs_for Cli.Log) with
    | Ok args => Ok (map (fun c => Cli.ArgFlag (if (c =? 100)%N then lit "done" else lit "undone")) cs
                     ++ args)
    | Err e => Err e
    end
  /\ (In 100%N cs -> forall args,
        Cli.parse_args ((lit "-" ++ cs) :: rest) (Cli.get_arg_specs_for Cli.Log) = Ok args ->
        Cli.get_flag args (lit "done") = true).
Proof.
  intro Hcs.
  assert (E : Cli.parse_args ((lit "-" ++ cs) :: rest) (Cli.get_arg_specs_for Cli.Log)
    = match Cli.parse_args rest (Cli.get_arg_specs_for Cli.Log) with
      | Ok args => Ok (map (fun c => Cli.ArgFlag (if (c =? 100)%N then lit "done" else lit "undone")) cs
                       ++ args)
      | Err e => Err e
      end).
  { unfold Cli.parse_args at 1.
    set (fl := filter (fun f => Cli.ArgKind_eqb (Cli.kind f) Cli.Flag) (Cli.get_arg_specs_for Cli.Log)).
    set (op := filter (fun o => Cli.ArgKind_eqb (Cli.kind o) Cli.Option) (Cli.get_arg_specs_for Cli.Log)).
    set (toks := (lit "-" ++ cs) :: rest).
    rewrite (parse_loop_short fl op toks (length toks) 0 [] (lit "-" ++ cs)).
    2: reflexivity.
    2:{ destruct cs as [|c cs']; [reflexivity|].
        inversion Hcs as [|? ? Hc _]; subst. destruct Hc as [->| ->]; reflexivity. }
    2:{ destruct cs; reflexivity. }
    change (skipn 1 (lit "-" ++ cs)) with cs.
    set (f := fun c => if (c =? 100)%N then Cli.mkSpec (lit "done") 100%N (lit "done") Cli.Flag
                       else Cli.mkSpec (lit "undone") 117%N (lit "undone") Cli.Flag).
    rewrite (parse_cluster_flags fl op toks cs 0 [] f).
    2:{ eapply Forall_impl; [|exact Hcs]. intros c [-> | ->]; reflexivity. }
    unfold toks. change ((lit "-" ++ cs) :: rest) with ([lit "-" ++ cs] ++ rest).
    change 1 with (length [lit "-" ++ cs]).
    rewrite parse_loop_resume by (rewrite length_app; simpl; lia).
    unfold Cli.parse_args. fold fl op.
    destruct (Cli.parse_loop rest fl op (S (length rest)) 0 []); [|reflexivity].
    simpl. f_equal. f_equal. apply map_ext. intro c. unfold f. destruct (c =? 100)%N; reflexivity. }
  split; [exact E|].
  intros Hin args Hargs. rewrite E in Hargs.
  destruct (Cli.parse_args rest (Cli.get_arg_specs_for Cli.Log)); [|discriminate].
  injection Hargs as <-. unfold Cli.get_flag. apply existsb_exists.
  exists (Cli.ArgFlag (lit "done")). split; [|reflexivity].
  apply in_app_iff. left. apply in_map_iff. exists 100%N. split; [reflexivity | exact Hin].
Qed.

(** [parse_args_log_flag_cluster] on [log -ud], the case of the source's
    own test. *)
Lemma parse_args_log_flag_cluster_witness :
  Forall (fun c => c = 100%N \/ c = 117%N) (lit "ud")
  /\ (Cli.parse_args ((lit "-" ++ lit "ud") :: []) (Cli.get_arg_specs_for Cli.Log)
      = match Cli.parse_args [] (Cli.get_arg_specs_for Cli.Log) with
        | Ok args => Ok (map (fun c => Cli.ArgFlag (if (c =? 100)%N then lit "done" else lit "undone"))
                             (lit "ud") ++ args)
        | Err e => Err e
        end
      /\ (In 100%N (lit "ud") -> forall args,
            Cli.parse_args ((lit "-" ++ lit "ud") :: []) (Cli.get_arg_specs_for Cli.Log) = Ok args ->
            Cli.get_flag args (lit "done") = true)).
Proof.
  assert (H : Forall (fun c => c = 100%N \/ c = 117%N) (lit "ud"))
    by (apply Forall_cons; [right; reflexivity|];
        apply Forall_cons; [left; reflexivity|]; apply Forall_nil).
  split; [exact H | exact (parse_args_log_flag_cluster (lit "ud") [] H)].
Defined.

(** A lone ["-"] is skipped, whatever the specification; a lone ["--"] is
    not an end-of-options marker but an unknown argument with an empty
    name, for every subcommand. *)
Theorem parse_args_dash_edges (arg_spec : list Cli.ArgSpec) (cmd : Cli.Subcommand)
    (rest : list str) :
  Cli.parse_args (lit "-" :: rest) arg_spec = Cli.parse_args rest arg_spec
  /\ Cli.parse_args (lit "--" :: rest) (Cli.get_arg_specs_for cmd) = Err (Cli.UnknownArg []).
Proof.
  split; [|destruct cmd; reflexivity].
  unfold Cli.parse_args at 1.
  set (fl := filter (fun f => Cli.ArgKind_eqb (Cli.kind f) Cli.Flag) arg_spec).
  set (op := filter (fun o => Cli.ArgKind_eqb (Cli.kind o) Cli.Option) arg_spec).
  rewrite (parse_loop_short fl op (lit "-" :: rest) (length (lit "-" :: rest)) 0 [] (lit "-"))
    by reflexivity.
  change (Cli.parse_loop ([lit "-"] ++ rest) fl op (length (lit "-" :: rest)) (length [lit "-"]) []
          = Cli.parse_args rest arg_spec).
  rewrite parse_loop_resume by (simpl; lia).
  unfold Cli.parse_args. fold fl op.
  destruct (Cli.parse_loop rest fl op (S (length rest)) 0 []); reflexivity.
Qed.

(** ** The entry point [run] *)

Lemma Forall2_same_origin (a b : list TodoItem) :
  Forall2 same_but_completion a b ->
  Forall (fun it' => exists it, In it a /\ hash it' = hash it /\ desc it' = desc it
                                 /\ tag it' = tag it) b.
Proof.
  induction 1 as [|x y a b Hxy _ IH]; constructor.
  - destruct Hxy as (E1 & E2 & E3 & _). exists x.
    split; [left; reflexivity | split; [exact E1 | split; [exact E2 | exact E3]]].
  - eapply Forall_impl; [|exact IH]. intros it' (it & Hin & H).
    exists it. split; [right; exact Hin | exact H].
Qed.

(** Only [add], [edit], [rm] and [done] ever save a list: every other
    command, and a call without a command, leaves the file alone. *)
Theorem run_saves_only_mutating (gen : nat -> str -> option str -> str)
    (load : result TodoList str) (editor : EditorRun) (args : list str)
    (r : result unit str) (l' : TodoList) :
  run gen load editor args = Some (r, Some l') ->
  exists cmd, nth_error args 1 = Some cmd
              /\ In cmd [lit "add"; lit "edit"; lit "rm"; lit "done"].
Proof.
  unfold run. destruct args as [|a [|cmd rest]]; [intros [=] | intros [=] |].
  intro H. injection H as H. exists cmd. split; [reflexivity|].
  destruct (str_eqb cmd (lit "add")) eqn:E1.
  { apply str_eqb_true in E1. subst cmd. left. reflexivity. }
  destruct (str_eqb cmd (lit "log")) eqn:E2.
  { destruct load; cbn [snd run_log] in H; discriminate H. }
  destruct (str_eqb cmd (lit "edit")) eqn:E3.
  { apply str_eqb_true in E3. subst cmd. right. left. reflexivity. }
  destruct (str_eqb cmd (lit "rm")) eqn:E4.
  { apply str_eqb_true in E4. subst cmd. right. right. left. reflexivity. }
  destruct (str_eqb cmd (lit "done")) eqn:E5.
  { apply str_eqb_true in E5. subst cmd. right. right. right. left. reflexivity. }
  destruct (str_eqb cmd (lit "--version") || str_eqb cmd (lit "-v")); [discriminate H|].
  destruct (str_eqb cmd (lit "--help") || str_eqb cmd (lit "-h")); discriminate H.
Qed.

(** [run_saves_only_mutating] on [marc done abc1]. *)
Lemma run_saves_only_mutating_witness :
  run (fun _ _ _ => []) (Ok (mkList [item_c1; item_c2])) (EditorOk [])
      [lit "marc"; lit "done"; lit "abc1"]
  = Some (Ok tt, Some (mkList [mkItem (lit "abc1111") (lit "buy milk") true (Some (lit "default"));
                               item_c2]))
  /\ exists cmd, nth_error [lit "marc"; lit "done"; lit "abc1"] 1 = Some cmd
                 /\ In cmd [lit "add"; lit "edit"; lit "rm"; lit "done"].
Proof.
  assert (H : run (fun _ _ _ => []) (Ok (mkList [item_c1; item_c2])) (EditorOk [])
                  [lit "marc"; lit "done"; lit "abc1"]
              = Some (Ok tt, Some (mkList [mkItem (lit "abc1111") (lit "buy milk") true
                                                  (Some (lit "default")); item_c2])))
    by (vm_compute; reflexivity).
  split; [exact H | exact (run_saves_only_mutating _ _ _ _ _ _ H)].
Defined.

(** Only [add] brings new items into a saved list, and it keeps the loaded
    items in front of them; every item saved by another command has the
    hash, description and tag of an item of the loaded list. *)
Theorem run_saved_items_origin (gen : nat -> str -> option str -> str) (l : TodoList)
    (editor : EditorRun) (args : list str) (r : result unit str) (l' : TodoList) :
  run gen (Ok l) editor args = Some (r, Some l') ->
  (nth_error args 1 = Some (lit "add") /\ exists fresh, items l' = items l ++ fresh)
  \/ Forall (fun it' => exists it, In it (items l) /\ hash it' = hash it
                                   /\ desc it' = desc it /\ tag it' = tag it) (items l').
Proof.
  unfold run. destruct args as [|a [|cmd rest]]; [intros [=] | intros [=] |].
  intro H. injection H as H.
  destruct (str_eqb cmd (lit "add")) eqn:E1.
  { apply str_eqb_true in E1. subst cmd. left. split; [reflexivity|].
    destruct rest as [|t rest]; [discriminate H|].
    destruct (add gen (t :: rest) l) as [l1|e] eqn:A; [|discriminate H].
    injection H as _ <-.
    destruct (add_ok_inv _ _ _ _ A) as (v & _ & _ & _ & _ & Ei).
    eexists. exact Ei. }
  destruct (str_eqb cmd (lit "log")) eqn:E2.
  { cbn [snd run_log] in H. discriminate H. }
  right.
  destruct (str_eqb cmd (lit "edit")) eqn:E3.
  { destruct (items l) as [|i0 is0] eqn:El; [discriminate H|]. rewrite <- El.
    destruct editor as [buffer|e]; [|discriminate H].
    destruct (edit l buffer) as [l1|e] eqn:Ed; [|discriminate H].
    injection H as _ <-.
    rewrite edit_result in Ed by congruence. injection Ed as <-. cbn [items].
    apply Forall_forall. intros it' Hin.
    destruct (nth_items_in _ _ _ Hin) as (j & _ & Ej).
    exists it'. split; [exact (nth_error_In _ _ Ej) | repeat split]. }
  destruct (str_eqb cmd (lit "rm")) eqn:E4.
  { unfold rm in H. destruct rest as [|p rest]; [discriminate H|].
    destruct (items l) as [|i0 is0] eqn:El; [discriminate H|].
    injection H as _ <-. rewrite <- El.
    apply Forall_forall. intros it' Hin. exists it'.
    split; [exact (subseq_incl _ _ _ (rm_loop_subseq (p :: rest) l) Hin) | repeat split]. }
  destruct (str_eqb cmd (lit "done")) eqn:E5.
  { destruct rest as [|p rest]; [discriminate H|].
    pose proof (done_loop_completes (p :: rest) l 0 []) as K.
    unfold done in H. destruct (items l) as [|i0 is0] eqn:El; [discriminate H|].
    rewrite <- El.
    destruct (done_loop (p :: rest) l 0 []) as [[l1 c] errs]. destruct K as [K _].
    assert (Eq : l1 = l').
    { destruct (Nat.ltb 0 c);
        [|destruct errs; [|destruct (Nat.eqb c 0)]; discriminate H].
      destruct errs; [|destruct (Nat.eqb c 0)]; injection H; auto. }
    subst l1. rewrite El. exact (Forall2_same_origin _ _ K). }
  destruct (str_eqb cmd (lit "--version") || str_eqb cmd (lit "-v")); [discriminate H|].
  destruct (str_eqb cmd (lit "--help") || str_eqb cmd (lit "-h")); discriminate H.
Qed.

(** [run_saved_items_origin] on [marc done abc1]. *)
Lemma run_saved_items_origin_witness :
  run (fun _ _ _ => []) (Ok (mkList [item_c1; item_c2])) (EditorOk [])
      [lit "marc"; lit "done"; lit "abc1"]
  = Some (Ok tt, Some (mkList [mkItem (lit "abc1111") (lit "buy milk") true (Some (lit "default"));
                               item_c2]))
  /\ ((nth_error [lit "marc"; lit "done"; lit "abc1"] 1 = Some (lit "add")
       /\ exists fresh, items (mkList [mkItem (lit "abc1111") (lit "buy milk") true
                                             (Some (lit "default")); item_c2])
                        = items (mkList [item_c1; item_c2]) ++ fresh)
      \/ Forall (fun it' => exists it, In it (items (mkList [item_c1; item_c2]))
                            /\ hash it' = hash it /\ desc it' = desc it /\ tag it' = tag it)
                (items (mkList [mkItem (lit "abc1111") (lit "buy milk") true
                                       (Some (lit "default")); item_c2]))).
Proof.
  assert (H : run (fun _ _ _ => []) (Ok (mkList [item_c1; item_c2])) (EditorOk [])
                  [lit "marc"; lit "done"; lit "abc1"]
              = Some (Ok tt, Some (mkList [mkItem (lit "abc1111") (lit "buy milk") true
                                                  (Some (lit "default")); item_c2])))
    by (vm_compute; reflexivity).
  split; [exact H | exact (run_saved_items_origin _ _ _ _ _ _ H)].
Defined.

(** ** Arguments read from stdin ([read_stdin]) *)

Lemma trim_start_no_leading (x : str) : no_leading_ws (trim_start x).
Proof.
  induction x as [|c x IH]; simpl; [exact I|].
  destruct (is_whitespace c) eqn:Hc; [exact IH | exact Hc].
Qed.

Lemma trim_start_id (x : str) : no_leading_ws x -> trim_start x = x.
Proof. destruct x as [|c x]; simpl; [reflexivity|]. intros ->. reflexivity. Qed.

Lemma trim_start_keeps_last (x : str) :
  no_leading_ws (rev x) -> no_leading_ws (rev (trim_start x)).
Proof.
  induction x as [|c x IH]; simpl; [tauto|].
  destruct (is_whitespace c) eqn:Hc; [|simpl; tauto].
  intro H. apply IH. destruct (rev x) as [|d r]; simpl in H; [congruence | exact H].
Qed.

Lemma trim_idem (x : str) : trim (trim x) = trim x.
Proof.
  unfold trim.
  assert (L : no_leading_ws (rev (trim_start (trim_end x)))).
  { apply trim_start_keeps_last. unfold trim_end. rewrite rev_involutive.
    apply trim_start_no_leading. }
  unfold trim_end at 1. rewrite (trim_start_id _ L), rev_involutive.
  apply trim_start_id, trim_start_no_leading.
Qed.

Lemma trim_start_in (x : str) (c : char) : In c (trim_start x) -> In c x.
Proof.
  induction x as [|d x IH]; simpl; [tauto|].
  destruct (is_whitespace d); [intro H; right; exact (IH H) | tauto].
Qed.

Lemma trim_in (x : str) (c : char) : In c (trim x) -> In c x.
Proof.
  unfold trim, trim_end. intro H.
  apply trim_start_in, in_rev, trim_start_in, in_rev in H. exact H.
Qed.

Lemma lines_from_no_newline (cur x a : str) :
  ~ In 10%N cur -> In a (lines_from cur x) -> ~ In 10%N a.
Proof.
  revert cur; induction x as [|c x IH]; intros cur Hcur; simpl.
  - destruct cur as [|d cur]; [tauto|]. intros [<- | []]. rewrite <- in_rev. exact Hcur.
  - destruct (char_eqb c 10%N) eqn:Hc.
    + intros [<- | H]; [|exact (IH [] (fun H => H) H)].
      rewrite <- in_rev. intro Hin. apply Hcur.
      destruct cur as [|d cur]; [destruct Hin|]. unfold drop_cr in Hin.
      destruct (char_eqb d 13%N); [right; exact Hin | exact Hin].
    + apply IH. intros [E | H]; [|exact (Hcur H)].
      subst c. discriminate Hc.
Qed.

(** Reading arguments from a pipe yields only nonempty, already trimmed
    arguments without a line break: one per line that is not blank. *)
Theorem read_stdin_args_clean (input : str) :
  match Cli.read_stdin false input with
  | Some args => Forall (fun a => a <> [] /\ trim a = a /\ ~ In 10%N a) args
  | None => False
  end.
Proof.
  unfold Cli.read_stdin. apply Forall_forall. intros a Hin.
  apply filter_In in Hin as [Hin Hne]. apply in_map_iff in Hin as (x & <- & Hx).
  split; [destruct (trim x); discriminate|]. split; [apply trim_idem|].
  intro H. apply trim_in in H. exact (lines_from_no_newline [] input x (fun H => H) Hx H).
Qed.

(** ** Building the command line ([CommandLine::new]) *)

(** Lines piped on stdin are parsed exactly as if they had been typed after
    the other arguments: an option at the end of the command line takes the
    first piped line as its value. *)
Theorem new_stdin_as_tokens (to_lowercase : str -> str) (tokens stdin_args : list str) :
  2 <= length tokens ->
  Cli.new to_lowercase (Some stdin_args) tokens = Cli.new to_lowercase None (tokens ++ stdin_args).
Proof.
  intro H. unfold Cli.new.
  assert (L1 : Nat.eqb (length tokens) 1 = false) by (apply Nat.eqb_neq; lia).
  assert (L2 : Nat.eqb (length (tokens ++ stdin_args)) 1 = false)
    by (apply Nat.eqb_neq; rewrite length_app; lia).
  rewrite L1, L2, nth_error_app1 by lia.
  rewrite skipn_app. replace (2 - length tokens) with 0 by lia. reflexivity.
Qed.

(** [new_stdin_as_tokens] on [marc add -t] with [home] and [milk] piped. *)
Lemma new_stdin_as_tokens_witness :
  2 <= length [lit "marc"; lit "add"; lit "-t"]
  /\ Cli.new (map Cli.ascii_lower) (Some [lit "home"; lit "milk"]) [lit "marc"; lit "add"; lit "-t"]
     = Cli.new (map Cli.ascii_lower) None ([lit "marc"; lit "add"; lit "-t"] ++ [lit "home"; lit "milk"]).
Proof.
  split; [simpl; lia|].
  apply new_stdin_as_tokens. simpl. lia.
Defined.

Lemma ascii_upper_ascii (c : char) : (c < 128)%N -> (Cli.ascii_upper c < 128)%N.
Proof. unfold Cli.ascii_upper. destruct ((97 <=? c) && (c <=? 122))%N; lia. Qed.

Lemma ascii_lower_upper (c : char) : Cli.ascii_lower (Cli.ascii_upper c) = Cli.ascii_lower c.
Proof.
  unfold Cli.ascii_upper. destruct ((97 <=? c) && (c <=? 122))%N eqn:U; [|reflexivity].
  apply andb_true_iff in U as [U1 U2]. apply N.leb_le in U1, U2. unfold Cli.ascii_lower.
  replace ((65 <=? c - 32) && (c - 32 <=? 90))%N with true
    by (symmetry; apply andb_true_iff; split; apply N.leb_le; lia).
  replace ((65 <=? c) && (c <=? 90))%N with false
    by (symmetry; apply andb_false_iff; right; apply N.leb_gt; lia).
  lia.
Qed.

(** [Subcommand::from_str] ignores ASCII case: an ASCII word and its
    uppercase form are both accepted, as the same subcommand, or both
    rejected. *)
Theorem from_str_ascii_case (to_lowercase : str -> str) (s : str) :
  (forall x, Forall (fun c => (c < 128)%N) x -> to_lowercase x = map Cli.ascii_lower x) ->
  Forall (fun c => (c < 128)%N) s ->
  match Cli.from_str to_lowercase s, Cli.from_str to_lowercase (map Cli.ascii_upper s) with
  | Ok a, Ok b => a = b
  | Err _, Err _ => True
  | _, _ => False
  end.
Proof.
  intros Hlow Hs.
  assert (Hu : Forall (fun c => (c < 128)%N) (map Cli.ascii_upper s)).
  { apply Forall_map. eapply Forall_impl; [|exact Hs]. exact ascii_upper_ascii. }
  assert (E : map Cli.ascii_lower (map Cli.ascii_upper s) = map Cli.ascii_lower s).
  { rewrite map_map. apply map_ext. exact ascii_lower_upper. }
  unfold Cli.from_str. rewrite (Hlow _ Hs), (Hlow _ Hu), E.
  repeat match goal with |- context [str_eqb ?a ?b] => destruct (str_eqb a b) end;
    cbn [orb]; trivial.
Qed.

(** [from_str_ascii_case] on [Add]. *)
Lemma from_str_ascii_case_witness :
  (forall x, Forall (fun c => (c < 128)%N) x -> map Cli.ascii_lower x = map Cli.ascii_lower x)
  /\ Forall (fun c => (c < 128)%N) (lit "Add")
  /\ match Cli.from_str (map Cli.ascii_lower) (lit "Add"),
           Cli.from_str (map Cli.ascii_lower) (map Cli.ascii_upper (lit "Add")) with
     | Ok a, Ok b => a = b
     | Err _, Err _ => True
     | _, _ => False
     end.
Proof.
  assert (Hl : forall x, Forall (fun c => (c < 128)%N) x -> map Cli.ascii_lower x = map Cli.ascii_lower x)
    by reflexivity.
  assert (Hs : Forall (fun c => (c < 128)%N) (lit "Add")).
  { vm_compute. repeat (apply Forall_cons; [reflexivity|]). apply Forall_nil. }
  split; [exact Hl | split; [exact Hs | exact (from_str_ascii_case _ _ Hl Hs)]].
Defined.
